(** * Set.h: an ordered set on an AA-tree

    A shallow embedding of the class template [Set<ValueType>] of
    [src/Set.h], and the verification of its specification.

    Memory model.  The tree owns its nodes through the child links
    [left_son] and [right_son]; that ownership graph is a tree, and it is
    embedded as the inductive type [Node].  A value of type [Node] is a
    (nullable) owning pointer together with everything reachable from it.
    Every cell carries the address it lives at ([self]); a non-owning
    [const Node*], as held by an iterator or stored in the [parent] field,
    is an [option addr], resolved against the owner's tree by [deref].
    The [parent] back-links are stored fields, updated by the rotations and
    by [Insert] exactly where the source assigns them. *)

From stdpp Require Import base option list sorting gmap.
From Stdlib Require Import ZArith Lia.

Abbreviation addr := positive.
Abbreviation oid := positive.

(** [size_t] arithmetic: a 64-bit unsigned integer as a [Z], reduced
    modulo [2^64] wherever the source increments, decrements or
    subtracts. *)
Definition size_t (x : Z) : Z := (x mod 2 ^ 64)%Z.

Definition BASIC_LEVEL : Z := 1.
Definition EMPTY_SIZE : Z := 0.

(** ** Nodes *)

Inductive Node (ValueType : Type) : Type :=
| nullptr : Node ValueType
| Cell (self : addr) (value : ValueType) (level : Z) (parent : option addr)
       (left_son right_son : Node ValueType) : Node ValueType.

Arguments nullptr {ValueType}.
Arguments Cell {ValueType} self value level parent left_son right_son.

(** An iterator: the owning container and the vertex it stands on
    ([None] is the null vertex of [end()]). *)
Record iterator : Type := Iterator {
  iterator_owner : oid;
  current_vertex : option addr
}.

(** [operator!=] and [operator==] of [Set::iterator]. *)
Definition iterator_ne (self it : iterator) : bool :=
  negb (bool_decide (current_vertex it = current_vertex self))
  || negb (bool_decide (iterator_owner it = iterator_owner self)).

Definition iterator_eq (self it : iterator) : bool := negb (iterator_ne self it).

(** A [Set] object: the two data members. *)
Record Set_ (ValueType : Type) : Type := MkSet {
  tree_root_ : Node ValueType;
  set_size_ : Z
}.

Arguments MkSet {ValueType} tree_root_ set_size_.
Arguments tree_root_ {ValueType} s.
Arguments set_size_ {ValueType} s.

(** The two mutating operations, for sequences of calls. *)
Inductive op (ValueType : Type) : Type :=
| op_insert (value : ValueType)
| op_erase (value : ValueType).

Arguments op_insert {ValueType} value.
Arguments op_erase {ValueType} value.

Section AATree.

Context {ValueType : Type}.
(** [operator<] of [ValueType]. *)
Variable less : ValueType → ValueType → bool.

#[local] Abbreviation Node := (Node ValueType).
#[local] Abbreviation Set_ := (Set_ ValueType).

(** *** Field access *)

(** The pointer value of an owning pointer. *)
Definition addr_of (vertex : Node) : option addr :=
  match vertex with
  | nullptr => None
  | Cell a _ _ _ _ _ => Some a
  end.

Definition value_of (vertex : Node) : option ValueType :=
  match vertex with
  | nullptr => None
  | Cell _ v _ _ _ _ => Some v
  end.

Definition parent_of (vertex : Node) : option addr :=
  match vertex with
  | nullptr => None
  | Cell _ _ _ p _ _ => p
  end.

Definition left_of (vertex : Node) : Node :=
  match vertex with
  | nullptr => nullptr
  | Cell _ _ _ _ l _ => l
  end.

Definition right_of (vertex : Node) : Node :=
  match vertex with
  | nullptr => nullptr
  | Cell _ _ _ _ _ r => r
  end.

(** [vertex->parent = p] (the source guards it with a null test, or applies
    it to a pointer that cannot be null). *)
Definition set_parent (vertex : Node) (p : option addr) : Node :=
  match vertex with
  | nullptr => nullptr
  | Cell a v k _ l r => Cell a v k p l r
  end.

(** [vertex->right_son = r]. *)
Definition set_right_son (vertex r : Node) : Node :=
  match vertex with
  | nullptr => nullptr
  | Cell a v k p l _ => Cell a v k p l r
  end.

(** Resolving a non-owning pointer in the tree that owns the cell. *)
Fixpoint deref (root : Node) (p : addr) : option Node :=
  match root with
  | nullptr => None
  | Cell a _ _ _ l r =>
      if decide (a = p) then Some root
      else match deref l p with
           | Some n => Some n
           | None => deref r p
           end
  end.

(** ** Rotation primitives *)

(** [Set::Skew], lines 213-226. *)
Definition Skew (vertex : Node) : Node :=
  match vertex with
  | Cell a v k p (Cell sa sv sk sp sl sr) r =>
      if negb (sk =? k)%Z then vertex
      else
        (* vertex->left_son = s->right_son; s->right_son->parent = vertex;
           s->right_son = vertex; s->parent = vertex->parent;
           vertex->parent = s *)
        Cell sa sv sk p sl (Cell a v k (Some sa) (set_parent sr (Some a)) r)
  | _ => vertex
  end.

(** [Set::Split], lines 229-244. *)
Definition Split (vertex : Node) : Node :=
  match vertex with
  | Cell a v k p l (Cell sa sv sk sp sl (Cell _ _ rk _ _ _ as srr)) =>
      if negb (k =? rk)%Z then vertex
      else
        (* vertex->right_son = s->left_son; s->left_son->parent = vertex;
           s->left_son = vertex; s->parent = vertex->parent;
           vertex->parent = s; ++s->level *)
        Cell sa sv (size_t (sk + 1)) p
             (Cell a v k (Some sa) l (set_parent sl (Some a))) srr
  | _ => vertex
  end.

(** ** Insert *)

(** [Set::Insert], lines 248-267.  The function reads and writes the member
    [set_size_] and allocates; both are threaded: [nx] is the next address
    [new] hands out, [sz] the value of [set_size_].  The result is the new
    subtree root, the out-parameter [inserted_vertex], and the two pieces
    of state. *)
Fixpoint Insert (t : Node) (value : ValueType) (nx : addr) (sz : Z)
  : Node * option addr * addr * Z :=
  match t with
  | nullptr =>
      (Cell nx value BASIC_LEVEL None nullptr nullptr, Some nx,
       Pos.succ nx, size_t (sz + 1))
  | Cell a v k p l r =>
      if less value v then
        let '(l', inserted_vertex, nx', sz') := Insert l value nx sz in
        let t := Cell a v k p (set_parent l' (Some a)) r in
        (Split (Skew t), inserted_vertex, nx', sz')
      else if less v value then
        let '(r', inserted_vertex, nx', sz') := Insert r value nx sz in
        let t := Cell a v k p l (set_parent r' (Some a)) in
        (Split (Skew t), inserted_vertex, nx', sz')
      else (t, Some a, nx, sz)
  end.

(** ** Erase *)

(** [Set::DecreaseLevel], lines 270-283. *)
Definition DecreaseLevel (vertex : Node) : Node :=
  match vertex with
  | nullptr => nullptr
  | Cell a v k p l r =>
      let expected_level :=
        match l, r with
        | Cell _ _ lk _ _ _, Cell _ _ rk _ _ _ => size_t (Z.min lk rk + 1)
        | _, _ => 1%Z
        end in
      if (k >? expected_level)%Z then
        Cell a v expected_level p l
          match r with
          | Cell ra rv rk rp rl rr =>
              if (rk >? expected_level)%Z
              then Cell ra rv expected_level rp rl rr else r
          | nullptr => nullptr
          end
      else vertex
  end.

(** The loop [while (vertex->left_son != nullptr) vertex = vertex->left_son]
    of [Successor] and of [begin()], and its mirror image in [Predecessor]
    and [operator--]. *)
Fixpoint leftmost (vertex : Node) : Node :=
  match vertex with
  | Cell _ _ _ _ (Cell _ _ _ _ _ _ as l) _ => leftmost l
  | _ => vertex
  end.

Fixpoint rightmost (vertex : Node) : Node :=
  match vertex with
  | Cell _ _ _ _ _ (Cell _ _ _ _ _ _ as r) => rightmost r
  | _ => vertex
  end.

(** [Set::Successor] and [Set::Predecessor], lines 286-301.  Both
    dereference the child without a test: on a vertex without that child
    the source is undefined, and the embedding returns [nullptr]. *)
Definition Successor (vertex : Node) : Node := leftmost (right_of vertex).
Definition Predecessor (vertex : Node) : Node := rightmost (left_of vertex).

(** Lines 329-338 of [Set::Erase]: the rotations applied to [vertex] after
    [DecreaseLevel]. *)
Definition Erase_rotations (vertex : Node) : Node :=
  let vertex :=
    match right_of vertex with
    | nullptr => vertex
    | r =>
        let r := Skew r in
        let r :=
          match right_of r with
          | nullptr => r
          | rr => set_right_son r (Skew rr)
          end in
        set_right_son vertex r
    end in
  let vertex := Split vertex in
  match right_of vertex with
  | nullptr => vertex
  | r => set_right_son vertex (Split r)
  end.

(** [Set::Erase], lines 304-340; [sz] is the member [set_size_].  The two
    [None] branches stand for [s->value] on a null [s]; they are not
    reached ([Successor_value] and [Predecessor_value] below). *)
Fixpoint Erase (vertex : Node) (value : ValueType) (sz : Z) : Node * Z :=
  match vertex with
  | nullptr => (nullptr, sz)
  | Cell a v k p l r =>
      if less value v then
        let '(l', sz') := Erase l value sz in
        (Erase_rotations (DecreaseLevel (Cell a v k p l' r)), sz')
      else if less v value then
        let '(r', sz') := Erase r value sz in
        (Erase_rotations (DecreaseLevel (Cell a v k p l r')), sz')
      else
        match l, r with
        | nullptr, nullptr => (nullptr, size_t (sz - 1))
        | nullptr, _ =>
            match value_of (Successor vertex) with
            | Some s_value =>
                let '(r', sz') := Erase r s_value sz in
                (Erase_rotations (DecreaseLevel (Cell a s_value k p l r')), sz')
            | None => (vertex, sz)
            end
        | _, _ =>
            match value_of (Predecessor vertex) with
            | Some s_value =>
                let '(l', sz') := Erase l s_value sz in
                (Erase_rotations (DecreaseLevel (Cell a s_value k p l' r)), sz')
            | None => (vertex, sz)
            end
        end
  end.

(** ** Find and LowerBound *)

(** The loop of [Set::Find], lines 384-396; the result is the pointer the
    source returns. *)
Fixpoint Find (vertex : Node) (value : ValueType) : option addr :=
  match vertex with
  | nullptr => None
  | Cell a v _ _ l r =>
      if less value v then Find l value
      else if less v value then Find r value
      else Some a
  end.

(** The loop of [Set::LowerBound], lines 400-413, with its local [ans]. *)
Fixpoint LowerBound_loop (ans : option addr) (vertex : Node) (value : ValueType)
  : option addr :=
  match vertex with
  | nullptr => ans
  | Cell a v _ _ l r =>
      if less value v then LowerBound_loop (Some a) l value
      else if less v value then LowerBound_loop ans r value
      else Some a
  end.

Definition LowerBound (vertex : Node) (value : ValueType) : option addr :=
  LowerBound_loop None vertex value.

(** ** Next and Prev *)

(** The parent walk of [Set::Next], lines 347-350.  [None] is a fault (a
    dangling or null dereference, or the fuel ran out); [Some None] is the
    null pointer. *)
Fixpoint Next_walk (fuel : nat) (root : Node) (vertex : addr)
  : option (option addr) :=
  match fuel with
  | O => None
  | S fuel =>
      n ← deref root vertex;
      match parent_of n with
      | None => Some None
      | Some p =>
          pn ← deref root p;
          if bool_decide (addr_of (left_of pn) ≠ Some vertex)
          then Next_walk fuel root p
          else Some (Some p)
      end
  end.

(** [Set::Next], lines 343-351. *)
Definition Next (fuel : nat) (root : Node) (vertex : option addr)
  : option (option addr) :=
  a ← vertex;
  n ← deref root a;
  match right_of n with
  | nullptr => Next_walk fuel root a
  | _ => Some (addr_of (Successor n))
  end.

(** The parent walk of [Set::Prev], lines 358-361. *)
Fixpoint Prev_walk (fuel : nat) (root : Node) (vertex : addr)
  : option (option addr) :=
  match fuel with
  | O => None
  | S fuel =>
      n ← deref root vertex;
      match parent_of n with
      | None => Some None
      | Some p =>
          pn ← deref root p;
          if bool_decide (addr_of (right_of pn) ≠ Some vertex)
          then Prev_walk fuel root p
          else Some (Some p)
      end
  end.

(** [Set::Prev], lines 354-362. *)
Definition Prev (fuel : nat) (root : Node) (vertex : option addr)
  : option (option addr) :=
  a ← vertex;
  n ← deref root a;
  match left_of n with
  | nullptr => Prev_walk fuel root a
  | _ => Some (addr_of (Predecessor n))
  end.

(** ** The public interface *)

(** [Set::insert], lines 155-160. *)
Definition insert (this : oid) (s : Set_) (value : ValueType) (nx : addr)
  : iterator * bool * Set_ * addr :=
  let previous_size := set_size_ s in
  let '(root, inserted_vertex, nx', sz') :=
    Insert (tree_root_ s) value nx (set_size_ s) in
  (Iterator this inserted_vertex, (sz' =? previous_size)%Z, MkSet root sz', nx').

(** [Set::erase], lines 163-167. *)
Definition erase (s : Set_) (value : ValueType) : Z * Set_ :=
  let previous_size := set_size_ s in
  let '(root, sz') := Erase (tree_root_ s) value (set_size_ s) in
  (size_t (previous_size - sz'), MkSet root sz').

(** [Set::find] and [Set::lower_bound], lines 171-179. *)
Definition find (this : oid) (s : Set_) (value : ValueType) : iterator :=
  Iterator this (Find (tree_root_ s) value).

Definition lower_bound (this : oid) (s : Set_) (value : ValueType) : iterator :=
  Iterator this (LowerBound (tree_root_ s) value).

(** [Set::begin] and [Set::end], lines 182-193. *)
Definition begin (this : oid) (s : Set_) : iterator :=
  Iterator this (addr_of (leftmost (tree_root_ s))).

Definition end_ (this : oid) : iterator := Iterator this None.

(** [Set::size] and [Set::empty], lines 196-203. *)
Definition size (s : Set_) : Z := set_size_ s.
Definition empty (s : Set_) : bool := (size s =? EMPTY_SIZE)%Z.

(** The default-constructed set. *)
Definition Set_default : Set_ := MkSet nullptr EMPTY_SIZE.

(** ** Iterator steps

    An iterator reaches its container through the pointer
    [iterator_owner]; the live [Set] objects are kept in a store indexed
    by object identity. *)

(** [iterator::operator++], lines 102-105. *)
Definition iterator_incr (fuel : nat) (σ : gmap oid Set_) (it : iterator)
  : option iterator :=
  s ← σ !! iterator_owner it;
  v ← Next fuel (tree_root_ s) (current_vertex it);
  Some (Iterator (iterator_owner it) v).

(** [iterator::operator--], lines 114-124. *)
Definition iterator_decr (fuel : nat) (σ : gmap oid Set_) (it : iterator)
  : option iterator :=
  s ← σ !! iterator_owner it;
  match current_vertex it with
  | None =>
      match tree_root_ s with
      | nullptr => None
      | root => Some (Iterator (iterator_owner it) (addr_of (rightmost root)))
      end
  | Some _ =>
      v ← Prev fuel (tree_root_ s) (current_vertex it);
      Some (Iterator (iterator_owner it) v)
  end.

(** ** Move construction and move assignment *)

(** [std::swap(a.tree_root_, b.tree_root_)] on two objects of the store,
    which may be the same object: read [a], write [a] from [b], write [b]
    from the saved value. *)
Definition swap_roots (a b : oid) (σ : gmap oid Set_) : option (gmap oid Set_) :=
  sa ← σ !! a;
  let tmp := tree_root_ sa in
  sb ← σ !! b;
  let σ := <[a := MkSet (tree_root_ sb) (set_size_ sa)]> σ in
  sb ← σ !! b;
  Some (<[b := MkSet tmp (set_size_ sb)]> σ).

(** [this->set_size_ = s.set_size_]. *)
Definition copy_size (this s : oid) (σ : gmap oid Set_) : option (gmap oid Set_) :=
  ss ← σ !! s;
  st ← σ !! this;
  Some (<[this := MkSet (tree_root_ st) (set_size_ ss)]> σ).

(** [Set::operator=(Set&&)], lines 66-70. *)
Definition move_assign (this s : oid) (σ : gmap oid Set_) : option (gmap oid Set_) :=
  σ ← swap_roots this s σ;
  copy_size this s σ.

(** [Set::Set(Set&&)], lines 51-54: the new object starts from the default
    member initialisers. *)
Definition move_construct (this s : oid) (σ : gmap oid Set_) : option (gmap oid Set_) :=
  match σ !! this with
  | Some _ => None
  | None =>
      let σ := <[this := Set_default]> σ in
      σ ← swap_roots s this σ;
      copy_size this s σ
  end.

(** ** Sequences of operations *)

Definition step (this : oid) (st : Set_ * addr) (o : op ValueType) : Set_ * addr :=
  match o with
  | op_insert value =>
      let '(_, _, s, nx) := insert this (fst st) value (snd st) in (s, nx)
  | op_erase value => (snd (erase (fst st) value), snd st)
  end.

Definition run (this : oid) (ops : list (op ValueType)) : Set_ * addr :=
  foldl (step this) (Set_default, 1%positive) ops.

(** [iterator::operator*], lines 93-95: the value under the iterator, a
    fault on [end()] or on a vertex the owner does not hold. *)
Definition iterator_star (s : Set_) (it : iterator) : option ValueType :=
  a ← current_vertex it;
  n ← deref (tree_root_ s) a;
  value_of n.

(** ** Observations used by the specification *)

(** The elements in in-order, and the cells' addresses in the same order. *)
Fixpoint inorder (t : Node) : list ValueType :=
  match t with
  | nullptr => []
  | Cell _ v _ _ l r => inorder l ++ v :: inorder r
  end.

Fixpoint addrs (t : Node) : list addr :=
  match t with
  | nullptr => []
  | Cell a _ _ _ l r => addrs l ++ a :: addrs r
  end.

(** The cells in in-order, each as its address and its value. *)
Fixpoint cells (t : Node) : list (addr * ValueType) :=
  match t with
  | nullptr => []
  | Cell a v _ _ l r => cells l ++ (a, v) :: cells r
  end.

Fixpoint height (t : Node) : nat :=
  match t with
  | nullptr => O
  | Cell _ _ _ _ l r => S (height l `max` height r)
  end.

(** Two values are equivalent when neither is less than the other: the
    equality that [Insert], [Erase], [Find] and [LowerBound] test. *)
Definition equiv_val (x y : ValueType) : bool :=
  negb (less x y) && negb (less y x).

(** [v] is present in the tree. *)
Definition stored (t : Node) (v : ValueType) : Prop :=
  ∃ x, x ∈ inorder t ∧ equiv_val x v = true.

(** Strictly increasing in-order traversal. *)
Definition ordered (t : Node) : Prop :=
  StronglySorted (λ x y, less x y = true) (inorder t).

(** The level of a possibly null child: clause (a) of the level invariant. *)
Definition level_of (t : Node) : Z :=
  match t with
  | nullptr => 0%Z
  | Cell _ _ k _ _ _ => k
  end.

(** Clauses (b), (c), (d) of the AA-tree level invariant, at every node. *)
Fixpoint AA_levels (t : Node) : bool :=
  match t with
  | nullptr => true
  | Cell _ _ k _ l r =>
      (k =? level_of l + 1)%Z
      && ((level_of r =? k)%Z || (level_of r =? k - 1)%Z)
      && (level_of (right_of r) <? k)%Z
      && AA_levels l && AA_levels r
  end.

(** Parent links agree with child links: the root of [t] names [p] as its
    parent, and every cell below names the cell it hangs from. *)
Fixpoint parents_ok (p : option addr) (t : Node) : Prop :=
  match t with
  | nullptr => True
  | Cell a _ _ q l r =>
      q = p ∧ parents_ok (Some a) l ∧ parents_ok (Some a) r
  end.

(** Every address in use lies below the allocator's next address. *)
Definition allocated (nx : addr) (t : Node) : Prop :=
  ∀ a, a ∈ addrs t → (a < nx)%positive.

(** The state of one container between two public calls. *)
Record valid (s : Set_) : Prop := {
  valid_ordered : ordered (tree_root_ s);
  valid_addrs : NoDup (addrs (tree_root_ s));
  valid_parents : parents_ok None (tree_root_ s)
}.

(** [n] is a cell of the tree [t]. *)
Fixpoint is_cell_of (n t : Node) : Prop :=
  match t with
  | nullptr => False
  | Cell _ _ _ _ l r => n = t ∨ is_cell_of n l ∨ is_cell_of n r
  end.

(** [position root s pre post d]: the subtree [s] hangs in [root] at depth
    [d], with the addresses [pre] before it and [post] after it in the
    in-order sequence of [root]. *)
Inductive position (root : Node) : Node → list addr → list addr → nat → Prop :=
| position_root : position root root [] [] 0
| position_left a v k p l r pre post d :
    position root (Cell a v k p l r) pre post d →
    position root l pre (a :: addrs r ++ post) (S d)
| position_right a v k p l r pre post d :
    position root (Cell a v k p l r) pre post d →
    position root r (pre ++ addrs l ++ [a]) post (S d).

(** What one call of [Insert] does to the sequence of cells: either the
    value is found and nothing changes, or one fresh cell holding the value
    enters the sequence at its ordered position. *)
Definition Insert_found (t t' : Node) (v : ValueType) (ins : option addr)
    (nx nx' : addr) (sz sz' : Z) : Prop :=
  ∃ a x, ins = Some a ∧ (a, x) ∈ cells t ∧ equiv_val x v = true ∧
         cells t' = cells t ∧ nx' = nx ∧ sz' = sz.

Definition Insert_added (t t' : Node) (v : ValueType) (ins : option addr)
    (nx nx' : addr) (sz sz' : Z) : Prop :=
  ins = Some nx ∧ ¬ stored t v ∧ nx' = Pos.succ nx ∧
  sz' = size_t (sz + 1) ∧
  ∃ xs ys, cells t = xs ++ ys ∧ cells t' = xs ++ (nx, v) :: ys ∧
           Forall (λ c, less c.2 v = true) xs ∧
           Forall (λ c, less v c.2 = true) ys.

(** The rebalancing sequence as the specification words it: Skew on the
    node, on its right child, on the right child's right child, then Split
    on the node and on its right child. *)
Definition spec_rebalance (vertex : Node) : Node :=
  let vertex := Skew vertex in
  let vertex :=
    match right_of vertex with
    | nullptr => vertex
    | r =>
        let r := Skew r in
        let r :=
          match right_of r with
          | nullptr => r
          | rr => set_right_son r (Skew rr)
          end in
        set_right_son vertex r
    end in
  let vertex := Split vertex in
  match right_of vertex with
  | nullptr => vertex
  | r => set_right_son vertex (Split r)
  end.

End AATree.

(** A strict weak ordering, as the comparison of a [Set] must be. *)
Record StrictWeakOrder {ValueType : Type} (less : ValueType → ValueType → bool)
  : Prop := {
  less_irrefl : ∀ x, less x x = false;
  less_trans : ∀ x y z, less x y = true → less y z = true → less x z = true;
  equiv_trans : ∀ x y z,
    equiv_val less x y = true → equiv_val less y z = true →
    equiv_val less x z = true
}.

(** ** Construction, copying and the postfix iterator steps *)

Section Lifecycle.

Context {ValueType : Type}.
Variable less : ValueType → ValueType → bool.

#[local] Abbreviation Node := (Node ValueType).
#[local] Abbreviation Set_ := (Set_ ValueType).

(** The body of the loops of [Set(FirstIterator, LastIterator)] and of
    [Set(std::initializer_list)], lines 33-34 and 41-42: one call of
    [Insert] on the root, its out-parameter dropped. *)
Definition construct_step (st : Set_ * addr) (value : ValueType) : Set_ * addr :=
  let '(root, _, nx', sz') :=
    Insert less (tree_root_ st.1) value st.2 (set_size_ st.1) in
  (MkSet root sz', nx').

(** [Set(FirstIterator begin, LastIterator end)], lines 30-37, with the
    range given as the list of the values it yields, and
    [Set(std::initializer_list<ValueType>)], lines 39-44. *)
Definition Set_range (elements : list ValueType) (nx : addr) : Set_ * addr :=
  foldl construct_step (Set_default, nx) elements.

Definition Set_initializer_list (elements : list ValueType) (nx : addr)
  : Set_ * addr :=
  foldl construct_step (Set_default, nx) elements.

(** [Set::Copy], lines 365-380: the copy of a vertex is allocated before
    the copies of its subtrees. *)
Fixpoint Copy (vertex : Node) (nx : addr) : Node * addr :=
  match vertex with
  | nullptr => (nullptr, nx)
  | Cell _ v k _ l r =>
      let copied_vertex := nx in
      let '(l', nx1) := Copy l (Pos.succ nx) in
      let '(r', nx2) := Copy r nx1 in
      (Cell copied_vertex v k None
         (set_parent l' (Some copied_vertex))
         (set_parent r' (Some copied_vertex)), nx2)
  end.

(** [Set(const Set& s)], lines 46-49, for a new object [this]. *)
Definition copy_construct (this s : oid) (σ : gmap oid Set_) (nx : addr)
  : option (gmap oid Set_ * addr) :=
  match σ !! this with
  | Some _ => None
  | None =>
      let σ := <[this := Set_default]> σ in
      ss ← σ !! s;
      st ← σ !! this;
      let σ := <[this := MkSet (tree_root_ st) (set_size_ ss)]> σ in
      ss ← σ !! s;
      let '(root, nx') := Copy (tree_root_ ss) nx in
      st ← σ !! this;
      Some (<[this := MkSet root (set_size_ st)]> σ, nx')
  end.

(** [Set::operator=(const Set& s)], lines 56-64.  [Delete(tree_root_)]
    frees the cells of the old tree; the root pointer is overwritten two
    statements later. *)
Definition copy_assign (this s : oid) (σ : gmap oid Set_) (nx : addr)
  : option (gmap oid Set_ * addr) :=
  _ ← σ !! this;
  _ ← σ !! s;
  if decide (s = this) then Some (σ, nx)
  else
    ss ← σ !! s;
    st ← σ !! this;
    let σ := <[this := MkSet (tree_root_ st) (set_size_ ss)]> σ in
    ss ← σ !! s;
    let '(root, nx') := Copy (tree_root_ ss) nx in
    st ← σ !! this;
    Some (<[this := MkSet root (set_size_ st)]> σ, nx').

(** [iterator::operator++(int)], lines 107-111: the returned iterator and
    the iterator after the step. *)
Definition iterator_post_incr (fuel : nat) (σ : gmap oid Set_) (it : iterator)
  : option (iterator * iterator) :=
  let ans := it in
  s ← σ !! iterator_owner it;
  v ← Next fuel (tree_root_ s) (current_vertex it);
  Some (ans, Iterator (iterator_owner it) v).

(** [iterator::operator--(int)], lines 126-138.  On the null vertex the
    source returns [*this], the iterator after the step, not [ans]. *)
Definition iterator_post_decr (fuel : nat) (σ : gmap oid Set_) (it : iterator)
  : option (iterator * iterator) :=
  let ans := it in
  s ← σ !! iterator_owner it;
  match current_vertex it with
  | None =>
      match tree_root_ s with
      | nullptr => None
      | root =>
          let moved := Iterator (iterator_owner it) (addr_of (rightmost root)) in
          Some (moved, moved)
      end
  | Some _ =>
      v ← Prev fuel (tree_root_ s) (current_vertex it);
      Some (ans, Iterator (iterator_owner it) v)
  end.

(** [Set::Delete], lines 416-422, as the sequence of addresses it hands to
    [delete]: the left subtree, the right subtree, then the vertex. *)
Fixpoint Delete (vertex : Node) : list addr :=
  match vertex with
  | nullptr => []
  | Cell a _ _ _ l r => Delete l ++ Delete r ++ [a]
  end.

(** A tree without its addresses and parent links: the values, the levels
    and the shape. *)
Fixpoint skeleton (t : Node) : Node :=
  match t with
  | nullptr => nullptr
  | Cell _ v k _ l r => Cell 1 v k None (skeleton l) (skeleton r)
  end.

(** The member [set_size_] counts the cells of the tree (as a [size_t]). *)
Definition counted (s : Set_) : Prop :=
  set_size_ s = size_t (Z.of_nat (length (inorder (tree_root_ s)))).

(** What a call of [Insert] does to the levels: the invariant is kept, and
    the level of the root stays or grows by one; it grows only through a
    Split at the root, which leaves no horizontal right link there. *)
Definition Insert_levels (t t' : Node) : Prop :=
  AA_levels t' = true ∧
  (level_of t' = level_of t ∨
   (level_of t' = (level_of t + 1)%Z ∧
    (level_of (right_of t') < level_of t')%Z ∧
    (t = nullptr ∨ level_of (right_of t) = level_of t))).

End Lifecycle.

(** ** Concrete inputs *)

(** The scenario of the specification: 5, 3, 8, 1, 4, 7, 9 inserted into an
    empty set of integers. *)
Definition sample_ops : list (op Z) :=
  op_insert <$> [5; 3; 8; 1; 4; 7; 9]%Z.

Definition sample_set : Set_ Z := (run Z.ltb 1%positive sample_ops).1.
Definition sample_next : addr := (run Z.ltb 1%positive sample_ops).2.
Definition sample_store : gmap oid (Set_ Z) := {[ 1%positive := sample_set ]}.

(** The set {1, 2, 3}, built by inserting 2, 1, 3. *)
Definition three_set : Set_ Z :=
  (run Z.ltb 1%positive (op_insert <$> [2; 1; 3]%Z)).1.

(** The root of [three_set] as [Erase] holds it after the leaf 3 is gone
    and [DecreaseLevel] has run: the node 2 and its left child 1 are on the
    same level. *)
Definition unskewed : Node Z :=
  Cell 1 2%Z 1 None (Cell 2 1%Z 1 (Some 1%positive) nullptr nullptr) nullptr.

(** Two live sets, {10} at object 1 and {20} at object 2. *)
Definition two_sets : gmap oid (Set_ Z) :=
  <[1%positive := MkSet (Cell 1 10%Z 1 None nullptr nullptr) 1]>
    (<[2%positive := MkSet (Cell 2 20%Z 1 None nullptr nullptr) 1]> ∅).

(** C3 as the specification states it, for a move from object [from] into
    object [this] that takes the store [σ] to [σ']. *)
Definition move_leaves_source_empty {ValueType : Type}
    (σ σ' : gmap oid (Set_ ValueType)) (this from : oid) : Prop :=
  ∃ src dst' src',
    σ !! from = Some src ∧ σ' !! this = Some dst' ∧ σ' !! from = Some src' ∧
    inorder (tree_root_ dst') = inorder (tree_root_ src) ∧
    size dst' = size src ∧
    size src' = 0%Z ∧ empty src' = true ∧ inorder (tree_root_ src') = [].

(** * Verification *)

#[global] Arguments Skew : simpl never.
#[global] Arguments Split : simpl never.
#[global] Arguments DecreaseLevel : simpl never.
#[global] Arguments Erase_rotations : simpl never.
#[global] Arguments Next : simpl never.
#[global] Arguments Prev : simpl never.

(** ** Rotations and field updates keep the in-order sequence of cells *)

Section Structure.

Context {ValueType : Type}.
Implicit Types (t l r vertex : Node ValueType) (p : option addr).

Lemma inorder_cells t : inorder t = (cells t).*2.
Proof.
  induction t as [|a v k p l IHl r IHr]; simpl; [done|].
  by rewrite fmap_app, fmap_cons, IHl, IHr.
Qed.

Lemma addrs_cells t : addrs t = (cells t).*1.
Proof.
  induction t as [|a v k p l IHl r IHr]; simpl; [done|].
  by rewrite fmap_app, fmap_cons, IHl, IHr.
Qed.

Lemma cells_set_parent t p : cells (set_parent t p) = cells t.
Proof. by destruct t. Qed.

Lemma cells_set_right_son t r :
  cells r = cells (right_of t) → cells (set_right_son t r) = cells t.
Proof. destruct t; simpl; [done|]. by intros ->. Qed.

Lemma cells_Skew t : cells (Skew t) = cells t.
Proof.
  destruct t as [|a v k p [|sa sv sk sp sl sr] r]; unfold Skew; simpl; try done.
  destruct (sk =? k)%Z; simpl; [|done].
  by rewrite cells_set_parent, <- app_assoc.
Qed.

Lemma cells_Split t : cells (Split t) = cells t.
Proof.
  destruct t as [|a v k p l [|sa sv sk sp sl [|ra rv rk rp rl rr]]];
    unfold Split; simpl; try done.
  destruct (k =? rk)%Z; simpl; [|done].
  by rewrite cells_set_parent, <- app_assoc.
Qed.

Lemma cells_DecreaseLevel t : cells (DecreaseLevel t) = cells t.
Proof.
  destruct t as [|a v k p l r]; unfold DecreaseLevel; simpl; [done|].
  destruct (k >? _)%Z; simpl; [|done].
  destruct r as [|ra rv rk rp rl rr]; [done|].
  by destruct (rk >? _)%Z.
Qed.

Lemma cells_Erase_rotations t : cells (Erase_rotations t) = cells t.
Proof.
  unfold Erase_rotations.
  set (t1 := match right_of t with nullptr => t | _ => _ end).
  assert (Ht1 : cells t1 = cells t).
  { subst t1. destruct (right_of t) as [|ra rv rk rp rl rr] eqn:Hr; [done|].
    apply cells_set_right_son. rewrite Hr.
    set (r := Cell ra rv rk rp rl rr).
    destruct (right_of (Skew r)) eqn:Hrr; [apply cells_Skew|].
    rewrite cells_set_right_son, cells_Skew; [done|].
    by rewrite cells_Skew, Hrr. }
  clearbody t1.
  destruct (right_of (Split t1)) eqn:Hs.
  - by rewrite cells_Split.
  - rewrite cells_set_right_son, cells_Split; [done|].
    by rewrite cells_Split, Hs.
Qed.


End Structure.

(** ** Parent links *)

Section Parents.

Context {ValueType : Type} (less : ValueType → ValueType → bool).
Implicit Types (t l r vertex : Node ValueType) (p q : option addr).

Lemma parents_ok_set_parent q p t :
  parents_ok q t → parents_ok p (set_parent t p).
Proof. destruct t; simpl; [done|]. by intros (_ & Hl & Hr). Qed.

Lemma parents_ok_parent_of p t : parents_ok p t → t ≠ nullptr → parent_of t = p.
Proof. destruct t; simpl; [done|]. by intros (-> & _) _. Qed.

Lemma parents_ok_right_of p t a :
  parents_ok p t → addr_of t = Some a → parents_ok (Some a) (right_of t).
Proof. destruct t; simpl; [done|]. by intros (_ & _ & Hr) [= <-]. Qed.

Lemma parents_ok_set_right_son p t r :
  parents_ok p t →
  (∀ a, addr_of t = Some a → parents_ok (Some a) r) →
  parents_ok p (set_right_son t r).
Proof.
  destruct t; simpl; [done|]. intros (-> & Hl & _) Hr.
  split_and!; [done..|]. by apply Hr.
Qed.


Lemma parents_ok_Skew p t : parents_ok p t → parents_ok p (Skew t).
Proof.
  destruct t as [|a v k q [|sa sv sk sp sl sr] r]; unfold Skew; simpl; try done.
  destruct (sk =? k)%Z; simpl; [|done].
  intros (-> & (-> & Hsl & Hsr) & Hr). split_and!; try done.
  by eapply parents_ok_set_parent.
Qed.

Lemma parents_ok_Split p t : parents_ok p t → parents_ok p (Split t).
Proof.
  destruct t as [|a v k q l [|sa sv sk sp sl [|ra rv rk rp rl rr]]];
    unfold Split; simpl; try done.
  destruct (k =? rk)%Z; simpl; [|done].
  intros (-> & Hl & (-> & Hsl & (-> & Hrl & Hrr))). split_and!; try done.
  by eapply parents_ok_set_parent.
Qed.

Lemma parents_ok_DecreaseLevel p t :
  parents_ok p t → parents_ok p (DecreaseLevel t).
Proof.
  destruct t as [|a v k q l r]; unfold DecreaseLevel; simpl; [done|].
  destruct (k >? _)%Z; simpl; [|done].
  destruct r as [|ra rv rk rp rl rr]; [done|].
  by destruct (rk >? _)%Z.
Qed.

Lemma parents_ok_Erase_rotations p t :
  parents_ok p t → parents_ok p (Erase_rotations t).
Proof.
  intros Ht. unfold Erase_rotations.
  set (t1 := match right_of t with nullptr => t | _ => _ end).
  assert (Ht1 : parents_ok p t1).
  { subst t1. destruct (right_of t) as [|ra rv rk rp rl rr] eqn:Hr; [done|].
    apply parents_ok_set_right_son; [done|]. intros a Ha.
    pose proof (parents_ok_right_of _ _ _ Ht Ha) as Hr'. rewrite Hr in Hr'.
    apply parents_ok_Skew in Hr'.
    set (r := Skew (Cell ra rv rk rp rl rr)) in *.
    destruct (right_of r) eqn:Hrr; [done|].
    apply parents_ok_set_right_son; [done|]. intros b Hb.
    rewrite <- Hrr. apply parents_ok_Skew. by eapply parents_ok_right_of. }
  clearbody t1. apply parents_ok_Split in Ht1.
  destruct (right_of (Split t1)) eqn:Hs; [done|].
  apply parents_ok_set_right_son; [done|]. intros a Ha.
  rewrite <- Hs. apply parents_ok_Split. by eapply parents_ok_right_of.
Qed.

Lemma parent_of_Skew t : parent_of (Skew t) = parent_of t.
Proof.
  destruct t as [|a v k q [|sa sv sk sp sl sr] r]; unfold Skew; simpl; try done.
  by destruct (sk =? k)%Z.
Qed.

Lemma parent_of_Split t : parent_of (Split t) = parent_of t.
Proof.
  destruct t as [|a v k q l [|sa sv sk sp sl [|ra rv rk rp rl rr]]];
    unfold Split; simpl; try done.
  by destruct (k =? rk)%Z.
Qed.

Lemma Insert_parent_of t v nx sz :
  parent_of (Insert less t v nx sz).1.1.1 = parent_of t.
Proof.
  destruct t as [|a x k q l r]; simpl; [done|].
  destruct (less v x); [|destruct (less x v)]; [| |done].
  - destruct (Insert less l v nx sz) as [[[l' ?] ?] ?]. simpl.
    by rewrite parent_of_Split, parent_of_Skew.
  - destruct (Insert less r v nx sz) as [[[r' ?] ?] ?]. simpl.
    by rewrite parent_of_Split, parent_of_Skew.
Qed.

Lemma Insert_parents_set t v nx sz p :
  parents_ok p t → parents_ok p (set_parent (Insert less t v nx sz).1.1.1 p).
Proof.
  revert p. induction t as [|a x k q l IHl r IHr]; intros p; simpl; [done|].
  intros (-> & Hl & Hr).
  destruct (less v x); [|destruct (less x v)]; [| |done].
  - specialize (IHl _ Hl).
    destruct (Insert less l v nx sz) as [[[l' ?] ?] ?]. simpl in *.
    eapply parents_ok_set_parent.
    apply parents_ok_Split, parents_ok_Skew. simpl. done.
  - specialize (IHr _ Hr).
    destruct (Insert less r v nx sz) as [[[r' ?] ?] ?]. simpl in *.
    eapply parents_ok_set_parent.
    apply parents_ok_Split, parents_ok_Skew. simpl. done.
Qed.

Lemma set_parent_id t : set_parent t (parent_of t) = t.
Proof. by destruct t. Qed.

(** At the top call [tree_root_ = Insert(tree_root_, ...)] no parent is
    assigned afterwards; the root's link is already null. *)
Lemma Insert_parents_root t v nx sz :
  parents_ok None t → parents_ok None (Insert less t v nx sz).1.1.1.
Proof.
  intros Ht. pose proof (Insert_parents_set t v nx sz None Ht) as H.
  pose proof (Insert_parent_of t v nx sz) as Hp.
  assert (parent_of t = None) as Hn.
  { destruct t; [done|]. by apply (parents_ok_parent_of None). }
  rewrite Hn in Hp. rewrite <- Hp in H at 2. by rewrite set_parent_id in H.
Qed.

Lemma Erase_parents t v sz p :
  parents_ok p t → parents_ok p (Erase less t v sz).1.
Proof.
  revert p v sz.
  induction t as [|a x k q l IHl r IHr]; intros p v sz; simpl; [done|].
  intros (-> & Hl & Hr).
  destruct (less v x); [|destruct (less x v)].
  - specialize (IHl _ v sz Hl). destruct (Erase less l v sz) as [l' sz']. simpl in *.
    by apply parents_ok_Erase_rotations, parents_ok_DecreaseLevel.
  - specialize (IHr _ v sz Hr). destruct (Erase less r v sz) as [r' sz']. simpl in *.
    by apply parents_ok_Erase_rotations, parents_ok_DecreaseLevel.
  - destruct l as [|la lv lk lp ll lr].
    + destruct r as [|ra rv rk rp rl rr]; [done|].
      destruct (value_of _) as [s_value|]; [|done].
      specialize (IHr _ s_value sz Hr).
      destruct (Erase less _ s_value sz) as [r' sz']. simpl in *.
      by apply parents_ok_Erase_rotations, parents_ok_DecreaseLevel.
    + destruct (value_of _) as [s_value|]; [|done].
      specialize (IHl _ s_value sz Hl).
      destruct (Erase less _ s_value sz) as [l' sz']. simpl in *.
      by apply parents_ok_Erase_rotations, parents_ok_DecreaseLevel.
Qed.

(** *** Addresses under Erase: no cell is created or moved *)

Lemma addrs_Erase_tail t :
  addrs (Erase_rotations (DecreaseLevel t)) = addrs t.
Proof.
  by rewrite !addrs_cells, cells_Erase_rotations, cells_DecreaseLevel.
Qed.

Lemma Erase_addrs t v sz : addrs (Erase less t v sz).1 `sublist_of` addrs t.
Proof.
  revert v sz.
  induction t as [|a x k q l IHl r IHr]; intros v sz; simpl; [done|].
  destruct (less v x); [|destruct (less x v)].
  - specialize (IHl v sz). destruct (Erase less l v sz) as [l' sz']. simpl in *.
    rewrite addrs_Erase_tail. simpl. by apply sublist_app.
  - specialize (IHr v sz). destruct (Erase less r v sz) as [r' sz']. simpl in *.
    rewrite addrs_Erase_tail. simpl. apply sublist_app; [done|].
    by apply sublist_skip.
  - destruct l as [|la lv lk lp ll lr].
    + destruct r as [|ra rv rk rp rl rr]; [apply sublist_nil_l|].
      destruct (value_of _) as [s_value|]; [|done].
      specialize (IHr s_value sz).
      destruct (Erase less _ s_value sz) as [r' sz']. simpl in *.
      rewrite addrs_Erase_tail. simpl. by apply sublist_skip.
    + destruct (value_of _) as [s_value|]; [|done].
      specialize (IHl s_value sz).
      destruct (Erase less _ s_value sz) as [l' sz']. simpl in *.
      rewrite addrs_Erase_tail. simpl. by apply sublist_app.
Qed.

End Parents.

(** ** Resolving addresses *)

Section Deref.

Context {ValueType : Type}.
Implicit Types (t l r : Node ValueType) (a b : addr).

Lemma deref_None t a : a ∉ addrs t → deref t a = None.
Proof.
  induction t as [|b y k p l IHl r IHr]; simpl; [done|].
  intros Hn. rewrite not_elem_of_app, not_elem_of_cons in Hn.
  destruct Hn as (Hl & Hb & Hr).
  destruct (decide (b = a)) as [->|_]; [done|].
  by rewrite IHl, IHr.
Qed.

Lemma cells_inorder t a x : (a, x) ∈ cells t → x ∈ inorder t.
Proof.
  intros H. rewrite inorder_cells. apply list_elem_of_fmap. by exists (a, x).
Qed.

Lemma cells_addrs t a x : (a, x) ∈ cells t → a ∈ addrs t.
Proof.
  intros H. rewrite addrs_cells. apply list_elem_of_fmap. by exists (a, x).
Qed.

Lemma deref_cells t a x :
  NoDup (addrs t) → (a, x) ∈ cells t →
  ∃ n, deref t a = Some n ∧ value_of n = Some x ∧ addr_of n = Some a.
Proof.
  induction t as [|b y k p l IHl r IHr]; simpl.
  { by intros _ ?%elem_of_nil. }
  intros (Hndl & Hlr & Hndr)%NoDup_app Hin.
  apply NoDup_cons in Hndr as [Hbr Hndr].
  assert (Hbl : b ∉ addrs l).
  { intros Hb. eapply Hlr; [done|]. by left. }
  apply elem_of_app in Hin as [Hin|Hin].
  - pose proof (cells_addrs _ _ _ Hin) as Ha.
    destruct (decide (b = a)) as [->|_]; [done|].
    destruct (IHl Hndl Hin) as (n & -> & Hn). eauto.
  - apply elem_of_cons in Hin as [[= -> ->]|Hin].
    + rewrite decide_True by done. eauto.
    + pose proof (cells_addrs _ _ _ Hin) as Ha.
      destruct (decide (b = a)) as [->|_]; [done|].
      rewrite deref_None.
      * destruct (IHr Hndr Hin) as (n & -> & Hn). eauto.
      * intros Hal. eapply Hlr; [done|]. by right.
Qed.

End Deref.

(** ** Walking the tree through parent links *)

Section Iteration.

Context {ValueType : Type}.
Implicit Types (t l r s n root : Node ValueType) (p q : option addr).
Implicit Types (a b : addr) (pre post xs ys : list addr).

Lemma is_cell_of_addrs n t a : is_cell_of n t → addr_of n = Some a → a ∈ addrs t.
Proof.
  induction t as [|b y k p l IHl r IHr]; simpl; [done|].
  intros [->|[H|H]] Ha.
  - injection Ha as ->. apply elem_of_app. right. by left.
  - apply elem_of_app. left. by apply IHl.
  - apply elem_of_app. right. right. by apply IHr.
Qed.

Lemma is_cell_of_trans n s t : is_cell_of n s → is_cell_of s t → is_cell_of n t.
Proof.
  induction t as [|b y k p l IHl r IHr]; simpl; [done|].
  intros Hn [->|[H|H]]; [done|right; left; by apply IHl|right; right; by apply IHr].
Qed.

Lemma is_cell_of_refl t : t ≠ nullptr → is_cell_of t t.
Proof. destruct t; [done|]. intros _. by left. Qed.

Lemma deref_is_cell_of t n a :
  NoDup (addrs t) → is_cell_of n t → addr_of n = Some a → deref t a = Some n.
Proof.
  induction t as [|b y k p l IHl r IHr]; simpl; [done|].
  intros (Hndl & Hlr & Hndr)%NoDup_app Hn Ha.
  apply NoDup_cons in Hndr as [Hbr Hndr].
  destruct Hn as [->|[Hn|Hn]].
  - injection Ha as ->. by rewrite decide_True.
  - pose proof (is_cell_of_addrs _ _ _ Hn Ha) as Hin.
    destruct (decide (b = a)) as [->|_].
    { exfalso. eapply Hlr; [done|]. by left. }
    by rewrite (IHl Hndl Hn Ha).
  - pose proof (is_cell_of_addrs _ _ _ Hn Ha) as Hin.
    destruct (decide (b = a)) as [->|_]; [done|].
    rewrite deref_None.
    + by apply IHr.
    + intros Hal. eapply Hlr; [done|]. by right.
Qed.

Lemma position_addrs root s pre post d :
  position root s pre post d → addrs root = pre ++ addrs s ++ post.
Proof.
  induction 1 as [|a v k p l r pre post d _ IH|a v k p l r pre post d _ IH].
  - by rewrite app_nil_r.
  - rewrite IH. simpl. by rewrite <- !app_assoc.
  - rewrite IH. simpl. by rewrite <- !app_assoc.
Qed.

Lemma position_is_cell_of root s pre post d :
  position root s pre post d → s ≠ nullptr → is_cell_of s root.
Proof.
  induction 1 as [|a v k p l r pre post d _ IH|a v k p l r pre post d _ IH];
    intros Hs.
  - by apply is_cell_of_refl.
  - eapply is_cell_of_trans; [|by apply IH]. simpl. right. left.
    by apply is_cell_of_refl.
  - eapply is_cell_of_trans; [|by apply IH]. simpl. right. right.
    by apply is_cell_of_refl.
Qed.

Lemma position_parents root s pre post d :
  parents_ok None root → position root s pre post d → ∃ p, parents_ok p s.
Proof.
  intros Hroot.
  induction 1 as [|a v k p l r pre post d _ IH|a v k p l r pre post d _ IH].
  - by exists None.
  - destruct IH as (q & _ & Hl & _). by exists (Some a).
  - destruct IH as (q & _ & _ & Hr). by exists (Some a).
Qed.

Lemma position_NoDup root s pre post d :
  NoDup (addrs root) → position root s pre post d → NoDup (addrs s).
Proof.
  intros Hnd Hpos. rewrite (position_addrs _ _ _ _ _ Hpos) in Hnd.
  apply NoDup_app in Hnd as (_ & _ & Hnd).
  by apply NoDup_app in Hnd as (Hnd & _).
Qed.

Lemma position_depth root s pre post d :
  position root s pre post d → d + height s ≤ height root.
Proof.
  induction 1 as [|a v k p l r pre post d _ IH|a v k p l r pre post d _ IH];
    simpl in *; lia.
Qed.

Lemma position_exists root s pre post d a :
  position root s pre post d → a ∈ addrs s →
  ∃ v k p l r pre' post' d',
    position root (Cell a v k p l r) pre' post' d'.
Proof.
  revert pre post d.
  induction s as [|b y k p l IHl r IHr]; intros pre post d Hpos; simpl.
  { by intros ?%elem_of_nil. }
  intros [Hin|[->|Hin]%elem_of_cons]%elem_of_app.
  - eapply IHl; [|done]. by eapply position_left.
  - by exists y, k, p, l, r, pre, post, d.
  - eapply IHr; [|done]. by eapply position_right.
Qed.

Lemma leftmost_addr t : addr_of (leftmost t) = head (addrs t).
Proof.
  induction t as [|a v k p l IHl r _]; simpl; [done|].
  destruct l as [|la lv lk lp ll lr]; [done|].
  rewrite IHl, head_app. simpl.
  by destruct (addrs ll ++ la :: addrs lr) eqn:E; [destruct (addrs ll)|].
Qed.

Lemma rightmost_addr t : addr_of (rightmost t) = last (addrs t).
Proof.
  induction t as [|a v k p l _ r IHr]; simpl; [done|].
  destruct r as [|ra rv rk rp rl rr]; [simpl; by rewrite last_snoc|].
  rewrite IHr, last_app, last_cons.
  destruct (last (addrs (Cell ra rv rk rp rl rr))) eqn:Hl; [done|].
  apply last_None in Hl. simpl in Hl. by destruct (addrs rl).
Qed.

Lemma NoDup_split_unique xs ys xs' ys' a :
  NoDup (xs ++ a :: ys) → xs ++ a :: ys = xs' ++ a :: ys' →
  xs = xs' ∧ ys = ys'.
Proof.
  revert xs'. induction xs as [|x xs IH]; intros xs' Hnd Heq.
  - destruct xs' as [|x' xs']; simpl in *.
    + by injection Heq as ->.
    + injection Heq as -> ->. apply NoDup_cons in Hnd as [Hn _].
      destruct Hn. apply elem_of_app. right. by left.
  - destruct xs' as [|x' xs']; simpl in *.
    + injection Heq as -> <-. apply NoDup_cons in Hnd as [Hn _].
      destruct Hn. apply elem_of_app. right. by left.
    + injection Heq as -> Heq. apply NoDup_cons in Hnd as [_ Hnd].
      destruct (IH _ Hnd Heq) as [-> ->]. done.
Qed.

(** The parent walks: from the root of a subtree, [Next_walk] arrives at
    the first address after the subtree, [Prev_walk] at the last address
    before it. *)
Lemma Next_walk_spec root s pre post d a fuel :
  NoDup (addrs root) → parents_ok None root →
  position root s pre post d → addr_of s = Some a → d < fuel →
  Next_walk fuel root a = Some (head post).
Proof.
  intros Hnd Hpar Hpos. revert a fuel.
  induction Hpos as [|b v k p l r pre post d Hpos IH|b v k p l r pre post d Hpos IH];
    intros a fuel Ha Hfuel.
  - destruct fuel as [|fuel]; [lia|]. simpl.
    assert (root ≠ nullptr) as Hne by by destruct root.
    rewrite (deref_is_cell_of root root a); [|done|by apply is_cell_of_refl|done].
    simpl. destruct root; [done|]. simpl in *. by destruct Hpar as (-> & _).
  - destruct fuel as [|fuel]; [lia|]. simpl.
    assert (l ≠ nullptr) as Hne by by destruct l.
    pose proof (position_left _ _ _ _ _ _ _ _ _ _ Hpos) as Hposl.
    rewrite (deref_is_cell_of root l a);
      [|done|by eapply position_is_cell_of|done].
    destruct (position_parents _ _ _ _ _ Hpar Hpos) as (q & _ & Hl & _).
    simpl. destruct l as [|la lv lk lp ll lr]; [done|].
    simpl in Hl. destruct Hl as (-> & _). simpl in Ha. injection Ha as ->.
    simpl. rewrite (deref_is_cell_of root _ b Hnd
      (position_is_cell_of _ _ _ _ _ Hpos ltac:(done)) eq_refl).
    simpl. by rewrite bool_decide_false by naive_solver.
  - destruct fuel as [|fuel]; [lia|]. simpl.
    assert (r ≠ nullptr) as Hne by by destruct r.
    pose proof (position_right _ _ _ _ _ _ _ _ _ _ Hpos) as Hposr.
    rewrite (deref_is_cell_of root r a);
      [|done|by eapply position_is_cell_of|done].
    destruct (position_parents _ _ _ _ _ Hpar Hpos) as (q & _ & _ & Hr).
    pose proof (position_NoDup _ _ _ _ _ Hnd Hpos) as Hndq.
    simpl. destruct r as [|ra rv rk rp rl rr]; [done|].
    simpl in Hr. destruct Hr as (-> & _). simpl in Ha. injection Ha as ->.
    simpl. rewrite (deref_is_cell_of root _ b Hnd
      (position_is_cell_of _ _ _ _ _ Hpos ltac:(done)) eq_refl).
    simpl. rewrite bool_decide_true.
    + apply IH; [done|lia].
    + intros Hl. simpl in Hndq. apply NoDup_app in Hndq as (_ & Hlr & _).
      eapply (Hlr a).
      * destruct l as [|la lv lk lp ll lr]; [done|]. injection Hl as ->.
        simpl. apply elem_of_app. right. by left.
      * right. apply elem_of_app. right. by left.
Qed.

Lemma Prev_walk_spec root s pre post d a fuel :
  NoDup (addrs root) → parents_ok None root →
  position root s pre post d → addr_of s = Some a → d < fuel →
  Prev_walk fuel root a = Some (last pre).
Proof.
  intros Hnd Hpar Hpos. revert a fuel.
  induction Hpos as [|b v k p l r pre post d Hpos IH|b v k p l r pre post d Hpos IH];
    intros a fuel Ha Hfuel.
  - destruct fuel as [|fuel]; [lia|]. simpl.
    assert (root ≠ nullptr) as Hne by by destruct root.
    rewrite (deref_is_cell_of root root a); [|done|by apply is_cell_of_refl|done].
    simpl. destruct root; [done|]. simpl in *. by destruct Hpar as (-> & _).
  - destruct fuel as [|fuel]; [lia|]. simpl.
    assert (l ≠ nullptr) as Hne by by destruct l.
    pose proof (position_left _ _ _ _ _ _ _ _ _ _ Hpos) as Hposl.
    rewrite (deref_is_cell_of root l a);
      [|done|by eapply position_is_cell_of|done].
    destruct (position_parents _ _ _ _ _ Hpar Hpos) as (q & _ & Hl & _).
    pose proof (position_NoDup _ _ _ _ _ Hnd Hpos) as Hndq.
    simpl. destruct l as [|la lv lk lp ll lr]; [done|].
    simpl in Hl. destruct Hl as (-> & _). simpl in Ha. injection Ha as ->.
    simpl. rewrite (deref_is_cell_of root _ b Hnd
      (position_is_cell_of _ _ _ _ _ Hpos ltac:(done)) eq_refl).
    simpl. rewrite bool_decide_true.
    + apply IH; [done|lia].
    + intros Hr. simpl in Hndq. apply NoDup_app in Hndq as (_ & Hlr & _).
      eapply (Hlr a).
      * apply elem_of_app. right. by left.
      * right. destruct r as [|ra rv rk rp rl rr]; [done|]. injection Hr as ->.
        simpl. apply elem_of_app. right. by left.
  - destruct fuel as [|fuel]; [lia|]. simpl.
    assert (r ≠ nullptr) as Hne by by destruct r.
    pose proof (position_right _ _ _ _ _ _ _ _ _ _ Hpos) as Hposr.
    rewrite (deref_is_cell_of root r a);
      [|done|by eapply position_is_cell_of|done].
    destruct (position_parents _ _ _ _ _ Hpar Hpos) as (q & _ & _ & Hr).
    simpl. destruct r as [|ra rv rk rp rl rr]; [done|].
    simpl in Hr. destruct Hr as (-> & _). simpl in Ha. injection Ha as ->.
    simpl. rewrite (deref_is_cell_of root _ b Hnd
      (position_is_cell_of _ _ _ _ _ Hpos ltac:(done)) eq_refl).
    simpl. rewrite bool_decide_false by naive_solver.
    by rewrite !app_assoc, last_snoc.
Qed.

Lemma position_of_addr root xs a ys :
  NoDup (addrs root) → addrs root = xs ++ a :: ys →
  ∃ v k p l r pre post d,
    position root (Cell a v k p l r) pre post d ∧
    xs = pre ++ addrs l ∧ ys = addrs r ++ post ∧ d < height root.
Proof.
  intros Hnd Heq.
  assert (Hin : a ∈ addrs root).
  { rewrite Heq. apply elem_of_app. right. by left. }
  destruct (position_exists root root [] [] 0 a (position_root root) Hin)
    as (v & k & p & l & r & pre & post & d & Hpos).
  exists v, k, p, l, r, pre, post, d. split; [done|].
  pose proof (position_addrs _ _ _ _ _ Hpos) as Ha. simpl in Ha.
  pose proof (position_depth _ _ _ _ _ Hpos) as Hd. simpl in Hd.
  rewrite Heq in Hnd.
  destruct (NoDup_split_unique xs ys (pre ++ addrs l) (addrs r ++ post) a Hnd)
    as [-> ->]; [|split_and!; [done..|lia]].
  rewrite <- Heq, Ha. by rewrite <- !app_assoc.
Qed.

(** [Next] steps to the following address of the in-order sequence, and
    to the null pointer from the last one. *)
Lemma Next_spec root xs a ys fuel :
  NoDup (addrs root) → parents_ok None root →
  addrs root = xs ++ a :: ys → height root ≤ fuel →
  Next fuel root (Some a) = Some (head ys).
Proof.
  intros Hnd Hpar Heq Hfuel.
  destruct (position_of_addr root xs a ys Hnd Heq)
    as (v & k & p & l & r & pre & post & d & Hpos & -> & -> & Hd).
  unfold Next. simpl.
  rewrite (deref_is_cell_of root _ a Hnd
    (position_is_cell_of _ _ _ _ _ Hpos ltac:(done)) eq_refl). simpl.
  destruct r as [|ra rv rk rp rl rr].
  - simpl. eapply Next_walk_spec; [done..|lia].
  - unfold Successor. simpl right_of. rewrite leftmost_addr, head_app.
    simpl. by destruct (addrs rl).
Qed.

(** [Prev] steps to the preceding address, and to the null pointer from
    the first one. *)
Lemma Prev_spec root xs a ys fuel :
  NoDup (addrs root) → parents_ok None root →
  addrs root = xs ++ a :: ys → height root ≤ fuel →
  Prev fuel root (Some a) = Some (last xs).
Proof.
  intros Hnd Hpar Heq Hfuel.
  destruct (position_of_addr root xs a ys Hnd Heq)
    as (v & k & p & l & r & pre & post & d & Hpos & -> & -> & Hd).
  unfold Prev. simpl.
  rewrite (deref_is_cell_of root _ a Hnd
    (position_is_cell_of _ _ _ _ _ Hpos ltac:(done)) eq_refl). simpl.
  destruct l as [|la lv lk lp ll lr].
  - simpl. rewrite app_nil_r. eapply Prev_walk_spec; [done..|lia].
  - unfold Predecessor. simpl left_of. rewrite rightmost_addr, last_app.
    destruct (last (addrs (Cell la lv lk lp ll lr))) eqn:Hl; [done|].
    apply last_None in Hl. simpl in Hl. by destruct (addrs ll).
Qed.

End Iteration.

(** ** Facts about a strict weak ordering *)

Section Order.

Context {ValueType : Type} (less : ValueType → ValueType → bool).
Hypothesis SWO : StrictWeakOrder less.
Implicit Types (x y z v : ValueType) (t l r : Node ValueType).

Lemma less_asym x y : less x y = true → less y x = false.
Proof.
  intros Hxy. destruct (less y x) eqn:Hyx; [|done].
  pose proof (less_trans less SWO x y x Hxy Hyx) as H.
  by rewrite (less_irrefl less SWO) in H.
Qed.

Lemma equiv_val_refl x : equiv_val less x x = true.
Proof. unfold equiv_val. by rewrite (less_irrefl less SWO). Qed.

Lemma equiv_val_sym x y : equiv_val less x y = equiv_val less y x.
Proof. unfold equiv_val. apply andb_comm. Qed.

Lemma equiv_val_spec x y :
  equiv_val less x y = true ↔ less x y = false ∧ less y x = false.
Proof.
  unfold equiv_val. rewrite andb_true_iff, !negb_true_iff. done.
Qed.

Lemma less_not_equiv x y : less x y = true → equiv_val less x y = false.
Proof. intros H. unfold equiv_val. by rewrite H. Qed.

Lemma less_not_equiv' x y : less x y = true → equiv_val less y x = false.
Proof. intros H. rewrite equiv_val_sym. by apply less_not_equiv. Qed.

Lemma less_equiv_r x y z :
  less x y = true → equiv_val less y z = true → less x z = true.
Proof.
  intros Hxy Hyz. destruct (less x z) eqn:Hxz; [done|].
  destruct (less z x) eqn:Hzx.
  - pose proof (less_trans less SWO z x y Hzx Hxy) as H.
    apply equiv_val_spec in Hyz as [_ Hzy]. congruence.
  - assert (Hxz' : equiv_val less x z = true) by by apply equiv_val_spec.
    rewrite equiv_val_sym in Hyz.
    pose proof (equiv_trans less SWO x z y Hxz' Hyz) as H.
    apply equiv_val_spec in H as [H _]. congruence.
Qed.

Lemma less_equiv_l x y z :
  equiv_val less x y = true → less y z = true → less x z = true.
Proof.
  intros Hxy Hyz. destruct (less x z) eqn:Hxz; [done|].
  destruct (less z x) eqn:Hzx.
  - pose proof (less_trans less SWO y z x Hyz Hzx) as H.
    apply equiv_val_spec in Hxy as [_ Hyx]. congruence.
  - assert (Hxz' : equiv_val less x z = true) by by apply equiv_val_spec.
    rewrite equiv_val_sym in Hxy.
    pose proof (equiv_trans less SWO y x z Hxy Hxz') as H.
    apply equiv_val_spec in H as [H _]. congruence.
Qed.

Lemma ordered_Cell a v k p l r :
  ordered less (Cell a v k p l r) ↔
  ordered less l ∧ ordered less r ∧
  Forall (λ y, less y v = true) (inorder l) ∧
  Forall (λ y, less v y = true) (inorder r).
Proof.
  unfold ordered. simpl.
  rewrite StronglySorted_app, StronglySorted_cons, !Forall_forall.
  split.
  - intros (Hlr & Hl & Hv & Hr). repeat split; [done..| |done].
    intros y Hy. apply Hlr; [done|]. by left.
  - intros (Hl & Hr & Hlv & Hvr). repeat split; [|done..].
    intros y z Hy Hz. apply elem_of_cons in Hz as [->|Hz]; [by apply Hlv|].
    eapply (less_trans less SWO); [by apply Hlv|by apply Hvr].
Qed.

Lemma stored_Cell a v k p l r x :
  stored less (Cell a v k p l r) x ↔
  stored less l x ∨ equiv_val less v x = true ∨ stored less r x.
Proof.
  unfold stored. simpl. split.
  - intros (y & Hy & He).
    apply elem_of_app in Hy as [Hy|Hy]; [left; eauto|].
    apply elem_of_cons in Hy as [->|Hy]; [by right; left|].
    right; right; eauto.
  - intros [(y & Hy & He)|[He|(y & Hy & He)]].
    + exists y. split; [|done]. apply elem_of_app. by left.
    + exists v. split; [|done]. apply elem_of_app. right. by left.
    + exists y. split; [|done]. apply elem_of_app. right. by right.
Qed.

(** *** Insert *)

Lemma Insert_spec t v nx sz t' ins nx' sz' :
  ordered less t →
  Insert less t v nx sz = (t', ins, nx', sz') →
  Insert_found less t t' v ins nx nx' sz sz' ∨
  Insert_added less t t' v ins nx nx' sz sz'.
Proof.
  revert t' ins nx' sz'.
  induction t as [|a x k p l IHl r IHr]; intros t' ins nx' sz' Hord; simpl.
  - intros [= <- <- <- <-]. right. repeat split; [by intros (y & Hy & _); inversion Hy|].
    by exists [], [].
  - apply ordered_Cell in Hord as (Hl & Hr & Hlx & Hxr).
    destruct (less v x) eqn:Hvx; [|destruct (less x v) eqn:Hxv].
    + destruct (Insert less l v nx sz) as [[[l' ins1] nx1] sz1] eqn:HI.
      intros [= <- <- <- <-]. unfold Insert_found, Insert_added.
      rewrite cells_Split, cells_Skew. simpl. rewrite cells_set_parent.
      destruct (IHl _ _ _ _ Hl eq_refl) as
        [(b & y & -> & Hin & He & Hc & -> & ->)
        |(-> & Hns & -> & -> & xs & ys & Hc & Hc' & Hxs & Hys)].
      * left. exists b, y. rewrite Hc. repeat split; try done.
        apply elem_of_app. by left.
      * right. repeat split; try done.
        { rewrite stored_Cell. intros [H|[H|(y & Hy & He)]]; [done| |].
          - by rewrite (less_not_equiv' v x) in H.
          - rewrite Forall_forall in Hxr.
            pose proof (less_trans less SWO _ _ _ Hvx (Hxr _ Hy)) as Hvy.
            by rewrite (less_not_equiv' v y) in He. }
        exists xs, (ys ++ (a, x) :: cells r).
        rewrite Hc, Hc', <- !app_assoc. repeat split; try done.
        apply Forall_app. split; [done|].
        apply Forall_cons. split; [done|].
        rewrite inorder_cells in Hxr. apply Forall_fmap in Hxr.
        eapply Forall_impl; [done|]. intros c Hc0. simpl in *.
        by eapply (less_trans less SWO).
    + destruct (Insert less r v nx sz) as [[[r' ins1] nx1] sz1] eqn:HI.
      intros [= <- <- <- <-]. unfold Insert_found, Insert_added.
      rewrite cells_Split, cells_Skew. simpl. rewrite cells_set_parent.
      destruct (IHr _ _ _ _ Hr eq_refl) as
        [(b & y & -> & Hin & He & Hc & -> & ->)
        |(-> & Hns & -> & -> & xs & ys & Hc & Hc' & Hxs & Hys)].
      * left. exists b, y. rewrite Hc. repeat split; try done.
        apply elem_of_app. right. by right.
      * right. repeat split; try done.
        { rewrite stored_Cell. intros [(y & Hy & He)|[H|H]]; [| |done].
          - rewrite Forall_forall in Hlx.
            pose proof (less_trans less SWO _ _ _ (Hlx _ Hy) Hxv) as Hyv.
            by rewrite (less_not_equiv y v) in He.
          - by rewrite (less_not_equiv x v) in H. }
        exists (cells l ++ (a, x) :: xs), ys.
        rewrite Hc, Hc', <- !app_assoc. repeat split; try done.
        apply Forall_app. split; [|by apply Forall_cons].
        rewrite inorder_cells in Hlx. apply Forall_fmap in Hlx.
        eapply Forall_impl; [done|]. intros c Hc0. simpl in *.
        by eapply (less_trans less SWO).
    + intros [= <- <- <- <-]. left. exists a, x. repeat split; try done.
      * simpl. apply elem_of_app. right. by left.
      * by apply equiv_val_spec.
Qed.

Lemma Insert_ordered t v nx sz t' ins nx' sz' :
  ordered less t →
  Insert less t v nx sz = (t', ins, nx', sz') →
  ordered less t'.
Proof.
  intros Hord HI.
  destruct (Insert_spec _ _ _ _ _ _ _ _ Hord HI) as
    [(b & y & _ & _ & _ & Hc & _)
    |(_ & _ & _ & _ & xs & ys & Hc & Hc' & Hxs & Hys)];
    unfold ordered in *; rewrite inorder_cells in *.
  - by rewrite Hc.
  - rewrite Hc in Hord. rewrite Hc'.
    rewrite fmap_app in *. rewrite fmap_cons. simpl.
    apply StronglySorted_app in Hord as (Hcross & Hsx & Hsy).
    apply StronglySorted_app. split_and!; [|done|].
    + intros y z Hy Hz. apply elem_of_cons in Hz as [->|Hz]; [|by apply Hcross].
      apply list_elem_of_fmap in Hy as (c & -> & Hc0).
      rewrite Forall_forall in Hxs. by apply Hxs.
    + apply StronglySorted_cons. split; [|done].
      by apply Forall_fmap.
Qed.

Lemma Insert_addrs t v nx sz t' ins nx' sz' :
  ordered less t →
  Insert less t v nx sz = (t', ins, nx', sz') →
  NoDup (addrs t) → allocated nx t →
  NoDup (addrs t') ∧ allocated nx' t'.
Proof.
  intros Hord HI Hnd Hal.
  destruct (Insert_spec _ _ _ _ _ _ _ _ Hord HI) as
    [(b & y & _ & _ & _ & Hc & -> & _)
    |(_ & _ & -> & _ & xs & ys & Hc & Hc' & _)];
    unfold allocated in *; rewrite addrs_cells in *.
  - by rewrite Hc.
  - rewrite Hc in Hnd, Hal. rewrite Hc'.
    rewrite fmap_app in *. rewrite fmap_cons. simpl. split.
    + apply NoDup_app in Hnd as (Hx & Hxy & Hy).
      assert (Hfresh : ∀ a, a ∈ xs.*1 ++ ys.*1 → a ≠ nx).
      { intros a Ha ->. apply Hal in Ha. lia. }
      apply NoDup_app. split_and!; [done| |].
      * intros a Ha Ha'. apply elem_of_cons in Ha' as [->|Ha'].
        -- eapply Hfresh; [|done]. apply elem_of_app. by left.
        -- by eapply Hxy.
      * apply NoDup_cons. split; [|done]. intros Ha.
        eapply Hfresh; [|done]. apply elem_of_app. by right.
    + intros a Ha. apply elem_of_app in Ha as [Ha|Ha].
      * assert (a < nx)%positive; [|lia]. apply Hal, elem_of_app. by left.
      * apply elem_of_cons in Ha as [->|Ha]; [lia|].
        assert (a < nx)%positive; [|lia]. apply Hal, elem_of_app. by right.
Qed.

(** After [++set_size_] the member differs from its old value, also when
    it wraps around. *)
Lemma size_t_succ_ne sz : size_t (sz + 1) ≠ sz.
Proof.
  unfold size_t. intros H.
  pose proof (Z.mod_pos_bound (sz + 1) (2 ^ 64) ltac:(lia)) as Hb.
  rewrite H in Hb.
  rewrite Z.add_mod, (Z.mod_small sz) in H by lia.
  change (1 mod 2 ^ 64)%Z with 1%Z in H.
  destruct (decide (sz + 1 = 2 ^ 64)%Z) as [He|Hne].
  - rewrite He, Z.mod_same in H by lia. lia.
  - rewrite Z.mod_small in H by lia. lia.
Qed.


(** *** Erase *)

Lemma filter_Forall_id {A} (P : A → Prop) `{!∀ c, Decision (P c)} (xs : list A) :
  Forall P xs → filter P xs = xs.
Proof.
  induction 1 as [|c xs Hc _ IH]; [done|].
  by rewrite filter_cons_True, IH.
Qed.

Lemma StronglySorted_sublist {A} (R : relation A) (xs ys : list A) :
  xs `sublist_of` ys → StronglySorted R ys → StronglySorted R xs.
Proof.
  induction 1 as [|c xs ys Hsub IH|c xs ys Hsub IH]; intros Hs; [done| |].
  - apply StronglySorted_cons in Hs as [Hx Hs].
    apply StronglySorted_cons. split; [|by apply IH].
    rewrite Forall_forall in *. intros d Hd. apply Hx.
    by eapply sublist_subseteq.
  - apply StronglySorted_cons in Hs as [_ Hs]. by apply IH.
Qed.

Lemma inorder_nonempty t : t ≠ nullptr → inorder t ≠ [].
Proof. destruct t; [done|]. intros _. simpl. by destruct (inorder _). Qed.

Lemma leftmost_value t : value_of (leftmost t) = head (inorder t).
Proof.
  induction t as [|a v k p l IHl r _]; simpl; [done|].
  destruct l as [|la lv lk lp ll lr]; [done|].
  rewrite IHl, head_app.
  pose proof (inorder_nonempty (Cell la lv lk lp ll lr) ltac:(done)) as H.
  by destruct (inorder (Cell la lv lk lp ll lr)).
Qed.

Lemma rightmost_value t : value_of (rightmost t) = last (inorder t).
Proof.
  induction t as [|a v k p l _ r IHr]; simpl; [done|].
  destruct r as [|ra rv rk rp rl rr]; [simpl; by rewrite last_snoc|].
  rewrite IHr, last_app, last_cons.
  pose proof (inorder_nonempty (Cell ra rv rk rp rl rr) ltac:(done)) as H.
  destruct (last (inorder (Cell ra rv rk rp rl rr))) eqn:Hl; [done|].
  by apply last_None in Hl.
Qed.

(** [Erase] calls [Successor] only with a right child and [Predecessor]
    only with a left child, so [s->value] is never read through a null
    pointer. *)
Lemma Successor_value a x k p l r :
  r ≠ nullptr → is_Some (value_of (Successor (Cell a x k p l r))).
Proof.
  intros Hr. unfold Successor. simpl. rewrite leftmost_value.
  apply inorder_nonempty in Hr. by destruct (inorder r).
Qed.

Lemma Predecessor_value a x k p l r :
  l ≠ nullptr → is_Some (value_of (Predecessor (Cell a x k p l r))).
Proof.
  intros Hl. unfold Predecessor. simpl. rewrite rightmost_value.
  apply inorder_nonempty in Hl.
  destruct (last (inorder l)) eqn:E; [done|]. by apply last_None in E.
Qed.

Lemma inorder_Erase_tail t :
  inorder (Erase_rotations (DecreaseLevel t)) = inorder t.
Proof.
  by rewrite !inorder_cells, cells_Erase_rotations, cells_DecreaseLevel.
Qed.

Lemma stored_left a x k p l r v :
  ordered less (Cell a x k p l r) → less v x = true →
  stored less (Cell a x k p l r) v ↔ stored less l v.
Proof.
  intros (Hl & Hr & Hlx & Hxr)%ordered_Cell Hvx.
  rewrite stored_Cell. split; [|by left].
  intros [H|[H|(y & Hy & He)]]; [done| |].
  - by rewrite (less_not_equiv' v x) in H.
  - rewrite Forall_forall in Hxr.
    pose proof (less_trans less SWO _ _ _ Hvx (Hxr _ Hy)) as Hvy.
    by rewrite (less_not_equiv' v y) in He.
Qed.

Lemma stored_right a x k p l r v :
  ordered less (Cell a x k p l r) → less x v = true →
  stored less (Cell a x k p l r) v ↔ stored less r v.
Proof.
  intros (Hl & Hr & Hlx & Hxr)%ordered_Cell Hxv.
  rewrite stored_Cell. split; [|by right; right].
  intros [(y & Hy & He)|[H|H]]; [| |done].
  - rewrite Forall_forall in Hlx.
    pose proof (less_trans less SWO _ _ _ (Hlx _ Hy) Hxv) as Hyv.
    by rewrite (less_not_equiv y v) in He.
  - by rewrite (less_not_equiv x v) in H.
Qed.

(** Filtering an ordered sequence by "not equivalent to [v]". *)
Lemma keep_above v xs :
  Forall (λ y, less v y = true) xs →
  filter (λ y, equiv_val less y v = false) xs = xs.
Proof.
  intros H. apply filter_Forall_id. eapply Forall_impl; [done|].
  intros y Hy. simpl. by apply less_not_equiv'.
Qed.

Lemma keep_below v xs :
  Forall (λ y, less y v = true) xs →
  filter (λ y, equiv_val less y v = false) xs = xs.
Proof.
  intros H. apply filter_Forall_id. eapply Forall_impl; [done|].
  intros y Hy. simpl. by apply less_not_equiv.
Qed.

Lemma Forall_less_equiv_r x v xs :
  equiv_val less x v = true →
  Forall (λ y, less y x = true) xs → Forall (λ y, less y v = true) xs.
Proof.
  intros He H. eapply Forall_impl; [done|]. intros y Hy. simpl in *.
  by eapply less_equiv_r.
Qed.

Lemma Forall_less_equiv_l x v xs :
  equiv_val less x v = true →
  Forall (λ y, less x y = true) xs → Forall (λ y, less v y = true) xs.
Proof.
  intros He H. eapply Forall_impl; [done|]. intros y Hy. simpl in *.
  eapply less_equiv_l; [|done]. by rewrite equiv_val_sym.
Qed.

(** What one call of [Erase] does to the elements and to [set_size_]. *)
Lemma Erase_spec t v sz :
  ordered less t →
  inorder (Erase less t v sz).1 =
    filter (λ y, equiv_val less y v = false) (inorder t) ∧
  (stored less t v ∧ (Erase less t v sz).2 = size_t (sz - 1) ∨
   ¬ stored less t v ∧ (Erase less t v sz).2 = sz).
Proof.
  revert v sz.
  induction t as [|a x k p l IHl r IHr]; intros v sz Hord.
  { simpl. split; [done|]. right. split; [|done].
    by intros (y & Hy%elem_of_nil & _). }
  pose proof Hord as (Hl & Hr & Hlx & Hxr)%ordered_Cell.
  simpl. destruct (less v x) eqn:Hvx; [|destruct (less x v) eqn:Hxv].
  - destruct (IHl v sz Hl) as [Hin Hsz].
    destruct (Erase less l v sz) as [l' sz']. simpl in *.
    rewrite inorder_Erase_tail. simpl. split.
    + rewrite filter_app, Hin. f_equal. symmetry. apply keep_above.
      apply Forall_cons. split; [done|].
      eapply Forall_impl; [done|]. intros y Hy. simpl in *.
      by eapply (less_trans less SWO).
    + rewrite (stored_left _ _ _ _ _ _ _ Hord Hvx). done.
  - destruct (IHr v sz Hr) as [Hin Hsz].
    destruct (Erase less r v sz) as [r' sz']. simpl in *.
    rewrite inorder_Erase_tail. simpl. split.
    + rewrite filter_app, filter_cons_True, Hin by by apply less_not_equiv.
      f_equal. symmetry. apply keep_below.
      eapply Forall_impl; [done|]. intros y Hy. simpl in *.
      by eapply (less_trans less SWO).
    + rewrite (stored_right _ _ _ _ _ _ _ Hord Hxv). done.
  - assert (He : equiv_val less x v = true) by by apply equiv_val_spec.
    assert (Hst : stored less (Cell a x k p l r) v).
    { apply stored_Cell. by right; left. }
    destruct l as [|la lv lk lp ll lr].
    + destruct r as [|ra rv rk rp rl rr].
      * simpl. split; [|by left].
        rewrite filter_cons_False; [done|]. by rewrite He.
      * assert (Hne : Cell ra rv rk rp rl rr ≠ nullptr) by done.
        cbv iota. remember (Cell ra rv rk rp rl rr) as r eqn:Er. clear Er.
        unfold Successor. simpl right_of. rewrite leftmost_value.
        destruct (inorder r) as [|s rest] eqn:Hr_in.
        { by apply inorder_nonempty in Hr_in. }
        simpl.
        assert (Hrs : StronglySorted (λ a b, less a b = true) (s :: rest)).
        { unfold ordered in Hr. by rewrite Hr_in in Hr. }
        apply StronglySorted_cons in Hrs as [Hs_rest _].
        destruct (IHr s sz Hr) as [Hin Hsz].
        destruct (Erase less r s sz) as [r' sz']. simpl in *.
        rewrite inorder_Erase_tail. simpl. rewrite Hin. split.
        -- rewrite filter_cons_False by by rewrite equiv_val_refl.
           rewrite (filter_cons_False _ x) by by rewrite He.
           rewrite keep_above by done.
           rewrite filter_cons_True, keep_above; [done| |].
           ++ eapply Forall_less_equiv_l; [done|].
              by apply Forall_cons in Hxr as [_ ?].
           ++ apply Forall_cons in Hxr as [Hxs _].
              apply less_not_equiv'. eapply less_equiv_l; [|done].
              by rewrite equiv_val_sym.
        -- left. split; [done|]. destruct Hsz as [[_ ->]|[Hns _]]; [done|].
           destruct Hns. exists s. split; [|apply equiv_val_refl].
           rewrite Hr_in. by left.
    + assert (Hne : Cell la lv lk lp ll lr ≠ nullptr) by done.
      cbv iota. remember (Cell la lv lk lp ll lr) as l eqn:El. clear El.
      unfold Predecessor. simpl left_of. rewrite rightmost_value.
      destruct (last (inorder l)) as [s|] eqn:Hl_in; last first.
      { apply last_None in Hl_in. by apply inorder_nonempty in Hl_in. }
      simpl. apply last_Some in Hl_in as [init Hl_in].
      assert (Hls : StronglySorted (λ a b, less a b = true) (init ++ [s])).
      { unfold ordered in Hl. by rewrite Hl_in in Hl. }
      apply StronglySorted_app in Hls as (Hinit_s & _ & _).
      assert (Hinit : Forall (λ y, less y s = true) init).
      { apply Forall_forall. intros y Hy. apply Hinit_s; [done|]. by left. }
      destruct (IHl s sz Hl) as [Hin Hsz].
      destruct (Erase less l s sz) as [l' sz']. simpl in *.
      rewrite inorder_Erase_tail. simpl. rewrite Hin, Hl_in. split.
      * rewrite !filter_app.
        rewrite (filter_cons_False _ s) by by rewrite equiv_val_refl.
        rewrite (filter_cons_False _ x) by by rewrite He.
        rewrite filter_nil, app_nil_r, keep_below by done.
        rewrite Hl_in in Hlx. apply Forall_app in Hlx as [Hix Hsx].
        apply Forall_cons in Hsx as [Hsx _].
        rewrite (keep_below v init) by by eapply Forall_less_equiv_r.
        rewrite filter_cons_True, filter_nil by
          (apply less_not_equiv; by eapply less_equiv_r).
        rewrite <- app_assoc. simpl. do 2 f_equal.
        rewrite keep_above; [done|]. by eapply Forall_less_equiv_l.
      * left. split; [done|]. destruct Hsz as [[_ ->]|[Hns _]]; [done|].
        destruct Hns. exists s. split; [|apply equiv_val_refl].
        rewrite Hl_in. apply elem_of_app. right. by left.
Qed.

(** *** The invariant of a container, and the sets a program can build *)

Lemma Erase_ordered t v sz : ordered less t → ordered less (Erase less t v sz).1.
Proof.
  intros Hord. destruct (Erase_spec t v sz Hord) as [Hin _].
  unfold ordered. rewrite Hin.
  eapply StronglySorted_sublist; [apply sublist_filter|done].
Qed.

Lemma Set_default_valid : valid less (@Set_default ValueType).
Proof. split; simpl; [constructor|constructor|done]. Qed.

Lemma insert_valid this s v nx :
  valid less s → allocated nx (tree_root_ s) →
  valid less (insert less this s v nx).1.2 ∧
  allocated (insert less this s v nx).2 (tree_root_ (insert less this s v nx).1.2).
Proof.
  intros [Hord Hnd Hpar] Hal. unfold insert.
  pose proof (Insert_parents_root less (tree_root_ s) v nx (set_size_ s) Hpar) as Hp.
  destruct (Insert less (tree_root_ s) v nx (set_size_ s))
    as [[[t' ins] nx'] sz'] eqn:HI. simpl in *.
  destruct (Insert_addrs _ _ _ _ _ _ _ _ Hord HI Hnd Hal) as [Hnd' Hal'].
  split; [|done]. split; simpl; [|done..].
  by eapply Insert_ordered.
Qed.

Lemma erase_valid s v nx :
  valid less s → allocated nx (tree_root_ s) →
  valid less (erase less s v).2 ∧ allocated nx (tree_root_ (erase less s v).2).
Proof.
  intros [Hord Hnd Hpar] Hal. unfold erase.
  pose proof (Erase_ordered (tree_root_ s) v (set_size_ s) Hord) as Ho.
  pose proof (Erase_addrs less (tree_root_ s) v (set_size_ s)) as Hs.
  pose proof (Erase_parents less (tree_root_ s) v (set_size_ s) None Hpar) as Hp.
  destruct (Erase less (tree_root_ s) v (set_size_ s)) as [t' sz']. simpl in *.
  split; [split; simpl; [done| |done]|].
  - by eapply sublist_NoDup.
  - intros a Ha. apply Hal. by eapply sublist_subseteq.
Qed.

Lemma step_valid this st o :
  valid less st.1 → allocated st.2 (tree_root_ st.1) →
  valid less (step less this st o).1 ∧
  allocated (step less this st o).2 (tree_root_ (step less this st o).1).
Proof.
  intros Hv Hal. destruct o as [v|v]; simpl.
  - pose proof (insert_valid this st.1 v st.2 Hv Hal) as H.
    by destruct (insert less this st.1 v st.2) as [[[? ?] ?] ?].
  - by apply erase_valid.
Qed.

Lemma run_valid this ops :
  valid less (run less this ops).1 ∧
  allocated (run less this ops).2 (tree_root_ (run less this ops).1).
Proof.
  unfold run.
  assert (H0 : valid less (@Set_default ValueType, 1%positive).1 ∧
    allocated (@Set_default ValueType, 1%positive).2
      (tree_root_ (@Set_default ValueType, 1%positive).1)).
  { split; [apply Set_default_valid|]. by intros a Ha%elem_of_nil. }
  revert H0. generalize (@Set_default ValueType, 1%positive).
  induction ops as [|o ops IH]; intros st H0; simpl; [done|].
  apply IH. destruct H0. by apply step_valid.
Qed.

(** The in-order traversal of every set built by inserts and erases is
    strictly increasing. *)
Lemma run_ordered this ops : ordered less (tree_root_ (run less this ops).1).
Proof. apply run_valid. Qed.

(** *** Find and LowerBound *)

Lemma LowerBound_loop_correct t v ans :
  ordered less t →
  (Forall (λ y, less y v = true) (inorder t) ∧ LowerBound_loop less ans t v = ans) ∨
  (∃ a x, LowerBound_loop less ans t v = Some a ∧ (a, x) ∈ cells t ∧
          less x v = false ∧
          ∀ y, y ∈ inorder t → less y v = false → less y x = false).
Proof.
  revert ans. induction t as [|a x k p l IHl r IHr]; intros ans Hord; simpl.
  { by left. }
  apply ordered_Cell in Hord as (Hl & Hr & Hlx & Hxr).
  rewrite Forall_forall in Hlx, Hxr.
  destruct (less v x) eqn:Hvx; [|destruct (less x v) eqn:Hxv].
  - right. destruct (IHl (Some a) Hl) as [[Hall ->]|(b & z & -> & Hin & Hz & Hmin)].
    + exists a, x. split_and!; [done| |by apply less_asym|].
      { apply elem_of_app. right. by left. }
      rewrite Forall_forall in Hall.
      intros y [Hy|[->|Hy]%elem_of_cons]%elem_of_app Hyv.
      * rewrite Hall in Hyv; done.
      * apply (less_irrefl less SWO).
      * by apply less_asym, Hxr.
    + exists b, z. split_and!; [done| |done|].
      { apply elem_of_app. by left. }
      pose proof (Hlx z (cells_inorder _ _ _ Hin)) as Hzx.
      intros y [Hy|[->|Hy]%elem_of_cons]%elem_of_app Hyv.
      * by apply Hmin.
      * by apply less_asym.
      * apply less_asym. eapply (less_trans less SWO); [done|]. by apply Hxr.
  - assert (Hbelow : ∀ y, y ∈ inorder l ++ [x] → less y v = true).
    { intros y [Hy|[->|[]%elem_of_nil]%elem_of_cons]%elem_of_app; [|done].
      eapply (less_trans less SWO); [|done]. by apply Hlx. }
    destruct (IHr ans Hr) as [[Hall ->]|(b & z & -> & Hin & Hz & Hmin)].
    + left. split; [|done]. rewrite Forall_forall in *.
      intros y [Hy|[->|Hy]%elem_of_cons]%elem_of_app; [| |by apply Hall];
        apply Hbelow, elem_of_app; [by left|right; by left].
    + right. exists b, z. split_and!; [done| |done|].
      { apply elem_of_app. right. by right. }
      intros y [Hy|[->|Hy]%elem_of_cons]%elem_of_app Hyv; [| |by apply Hmin].
      * rewrite Hbelow in Hyv; [done|]. apply elem_of_app. by left.
      * rewrite Hbelow in Hyv; [done|]. apply elem_of_app. right. by left.
  - right. exists a, x. split_and!; [done| |done|].
    { apply elem_of_app. right. by left. }
    assert (He : equiv_val less x v = true) by by apply equiv_val_spec.
    intros y [Hy|[->|Hy]%elem_of_cons]%elem_of_app Hyv.
    + rewrite (less_equiv_r y x v) in Hyv; [done|by apply Hlx|done].
    + apply (less_irrefl less SWO).
    + by apply less_asym, Hxr.
Qed.

Lemma LowerBound_loop_stored t v ans :
  ordered less t → stored less t v →
  LowerBound_loop less ans t v = Find less t v.
Proof.
  revert ans. induction t as [|a x k p l IHl r IHr]; intros ans Hord Hst; simpl.
  { by destruct Hst as (y & ?%elem_of_nil & _). }
  pose proof Hord as (Hl & Hr & _)%ordered_Cell.
  destruct (less v x) eqn:Hvx; [|destruct (less x v) eqn:Hxv]; [| |done].
  - apply IHl; [done|]. by eapply stored_left.
  - apply IHr; [done|]. by eapply stored_right.
Qed.

Lemma Find_stored t v :
  ordered less t →
  (stored less t v ∧ ∃ a x, Find less t v = Some a ∧ (a, x) ∈ cells t ∧
                            equiv_val less x v = true) ∨
  (¬ stored less t v ∧ Find less t v = None).
Proof.
  induction t as [|a x k p l IHl r IHr]; intros Hord; simpl.
  { right. split; [|done]. by intros (y & ?%elem_of_nil & _). }
  pose proof Hord as (Hl & Hr & _)%ordered_Cell.
  destruct (less v x) eqn:Hvx; [|destruct (less x v) eqn:Hxv].
  - rewrite (stored_left _ _ _ _ _ _ _ Hord Hvx).
    destruct (IHl Hl) as [(Hs & b & z & Hf & Hin & He)|?]; [left|by right].
    split; [done|]. exists b, z. split_and!; [done| |done].
    apply elem_of_app. by left.
  - rewrite (stored_right _ _ _ _ _ _ _ Hord Hxv).
    destruct (IHr Hr) as [(Hs & b & z & Hf & Hin & He)|?]; [left|by right].
    split; [done|]. exists b, z. split_and!; [done| |done].
    apply elem_of_app. right. by right.
  - left. assert (He : equiv_val less x v = true) by by apply equiv_val_spec.
    split; [apply stored_Cell; by right; left|].
    exists a, x. split_and!; [done| |done].
    apply elem_of_app. right. by left.
Qed.

(** ** The public interface *)

Lemma size_t_erased sz : size_t (sz - size_t (sz - 1)) = 1%Z.
Proof.
  unfold size_t. rewrite Zminus_mod_idemp_r.
  replace (sz - (sz - 1))%Z with 1%Z by lia. done.
Qed.

Lemma size_t_kept sz : size_t (sz - sz) = 0%Z.
Proof. by rewrite Z.sub_diag. Qed.

(** In a strictly increasing sequence the elements equivalent to [v] are a
    single one, and filtering them out removes exactly that one. *)
Lemma filter_remove_equiv v (L : list ValueType) :
  StronglySorted (λ x y, less x y = true) L →
  (∃ x, x ∈ L ∧ equiv_val less x v = true) →
  ∃ xs x ys, L = xs ++ x :: ys ∧ equiv_val less x v = true ∧
    filter (λ y, equiv_val less y v = false) L = xs ++ ys ∧
    Forall (λ y, less y v = true) xs ∧ Forall (λ y, less v y = true) ys.
Proof.
  intros Hs (x & Hx & He).
  apply list_elem_of_split in Hx as (xs & ys & ->).
  apply StronglySorted_app in Hs as (Hcross & _ & Hxy).
  apply StronglySorted_cons in Hxy as [Hxy _].
  assert (Hxs : Forall (λ y, less y v = true) xs).
  { apply Forall_forall. intros y Hy. eapply less_equiv_r; [|done].
    apply Hcross; [done|]. by left. }
  assert (Hys : Forall (λ y, less v y = true) ys).
  { by eapply Forall_less_equiv_l. }
  exists xs, x, ys. split_and!; try done.
  rewrite filter_app, filter_cons_False by by rewrite He.
  by rewrite keep_below, keep_above.
Qed.

Lemma not_stored_filter v t :
  ¬ stored less t v →
  filter (λ y, equiv_val less y v = false) (inorder t) = inorder t.
Proof.
  intros Hns. apply filter_Forall_id, Forall_forall. intros y Hy.
  destruct (equiv_val less y v) eqn:He; [|done].
  destruct Hns. by exists y.
Qed.

(** C5. For every set S and value v: when v is present, [S.erase(v)]
    returns 1 and removes the one element equivalent to v (S no longer holds
    v, the other elements keep their order, the count drops by one); when v
    is absent it returns 0 and leaves the element sequence and the size
    unchanged. *)
Theorem erase_removes_present_ignores_absent (s : Set_ ValueType) v :
  valid less s →
  (stored less (tree_root_ s) v →
     (erase less s v).1 = 1%Z ∧
     size (erase less s v).2 = size_t (size s - 1) ∧
     ¬ stored less (tree_root_ (erase less s v).2) v ∧
     ∃ xs x ys, inorder (tree_root_ s) = xs ++ x :: ys ∧
                equiv_val less x v = true ∧
                inorder (tree_root_ (erase less s v).2) = xs ++ ys) ∧
  (¬ stored less (tree_root_ s) v →
     (erase less s v).1 = 0%Z ∧
     inorder (tree_root_ (erase less s v).2) = inorder (tree_root_ s) ∧
     size (erase less s v).2 = size s).
Proof.
  intros [Hord _ _]. unfold erase, size.
  destruct (Erase_spec (tree_root_ s) v (set_size_ s) Hord) as [Hin Hsz].
  destruct (Erase less (tree_root_ s) v (set_size_ s)) as [t' sz'].
  simpl in *. split; intros Hst.
  - destruct Hsz as [[_ ->]|[Hns _]]; [|done].
    split; [apply size_t_erased|]. split; [done|].
    destruct (filter_remove_equiv v _ Hord Hst)
      as (xs & x & ys & HL & He & Hf & Hxs & Hys).
    rewrite Hf in Hin. split; [|by exists xs, x, ys].
    intros (y & Hy & Hey). rewrite Hin in Hy.
    rewrite Forall_forall in Hxs, Hys.
    apply elem_of_app in Hy as [Hy|Hy].
    + by rewrite (less_not_equiv y v) in Hey by by apply Hxs.
    + by rewrite (less_not_equiv' v y) in Hey by by apply Hys.
  - destruct Hsz as [[Hs _]|[_ ->]]; [done|].
    split; [apply size_t_kept|]. split; [|done].
    by rewrite Hin, not_stored_filter.
Qed.

Lemma iterator_eq_refl it : iterator_eq it it = true.
Proof.
  unfold iterator_eq, iterator_ne. by rewrite !bool_decide_true.
Qed.

Lemma iterator_eq_spec it1 it2 : iterator_eq it1 it2 = true ↔ it1 = it2.
Proof.
  split; [|intros ->; apply iterator_eq_refl].
  unfold iterator_eq, iterator_ne. destruct it1 as [o1 v1], it2 as [o2 v2]. simpl.
  rewrite negb_true_iff, orb_false_iff, !negb_false_iff, !bool_decide_eq_true.
  by intros [-> ->].
Qed.

(** C6. For every set S and value v: if some stored element is not less
    than v, [S.lower_bound(v)] is an iterator to a stored element x that is
    not less than v and is minimal among those; if there is none, it is
    [end()]; and when v is present in S it equals [S.find(v)]. *)
Theorem lower_bound_is_least_not_less (this : oid) (s : Set_ ValueType) v :
  valid less s →
  ((∃ y, y ∈ inorder (tree_root_ s) ∧ less y v = false) →
     ∃ x, iterator_star s (lower_bound less this s v) = Some x ∧
          x ∈ inorder (tree_root_ s) ∧ less x v = false ∧
          ∀ y, y ∈ inorder (tree_root_ s) → less y v = false → less y x = false) ∧
  ((∀ y, y ∈ inorder (tree_root_ s) → less y v = true) →
     lower_bound less this s v = end_ this) ∧
  (stored less (tree_root_ s) v →
     iterator_eq (lower_bound less this s v) (find less this s v) = true).
Proof.
  intros [Hord Hnd _]. unfold lower_bound, LowerBound, find, end_.
  destruct (LowerBound_loop_correct (tree_root_ s) v None Hord)
    as [[Hall Hlb]|(a & x & Hlb & Hin & Hx & Hmin)].
  - rewrite Forall_forall in Hall. split_and!.
    + intros (y & Hy & Hyv). rewrite Hall in Hyv; done.
    + by rewrite Hlb.
    + intros Hst. rewrite LowerBound_loop_stored by done. apply iterator_eq_refl.
  - split_and!.
    + intros _. exists x. split_and!; [|by eapply cells_inorder|done..].
      unfold iterator_star. rewrite Hlb. simpl.
      destruct (deref_cells _ _ _ Hnd Hin) as (n & -> & Hn & _). done.
    + intros Hall. rewrite Hall in Hx; [done|]. by eapply cells_inorder.
    + intros Hst. rewrite LowerBound_loop_stored by done. apply iterator_eq_refl.
Qed.

(** The flag [insert] computes, [set_size_ == previous_size], is true
    exactly when the value was already present. *)
Lemma insert_flag_iff_present (this : oid) (s : Set_ ValueType) v nx :
  ordered less (tree_root_ s) →
  (insert less this s v nx).1.1.2 = true ↔ stored less (tree_root_ s) v.
Proof.
  intros Hord. unfold insert.
  destruct (Insert less (tree_root_ s) v nx (set_size_ s))
    as [[[t' ins] nx'] sz'] eqn:HI. simpl.
  destruct (Insert_spec _ _ _ _ _ _ _ _ Hord HI) as
    [(b & y & _ & Hin & He & _ & _ & ->)|(_ & Hns & _ & -> & _)].
  - rewrite Z.eqb_refl. split; [|done]. intros _. exists y.
    split; [by eapply cells_inorder|done].
  - split; [|done]. intros H%Z.eqb_eq. by apply size_t_succ_ne in H.
Qed.

(** C8. For every set S and value v, the iterator returned by
    [S.insert(v)] stands on a cell of the new tree whose value is equivalent
    to v; when v was already present that cell is one S held before the
    call, with the same value. *)
Theorem insert_iterator_points_at_value (this : oid) (s : Set_ ValueType) v nx :
  valid less s → allocated nx (tree_root_ s) →
  ∃ x, iterator_star (insert less this s v nx).1.2 (insert less this s v nx).1.1.1
         = Some x ∧
       x ∈ inorder (tree_root_ (insert less this s v nx).1.2) ∧
       equiv_val less x v = true ∧
       (stored less (tree_root_ s) v →
          ∃ a, current_vertex (insert less this s v nx).1.1.1 = Some a ∧
               a ∈ addrs (tree_root_ s) ∧
               iterator_star s (insert less this s v nx).1.1.1 = Some x).
Proof.
  intros [Hord Hnd _] Hal. unfold insert.
  destruct (Insert less (tree_root_ s) v nx (set_size_ s))
    as [[[t' ins] nx'] sz'] eqn:HI. simpl.
  destruct (Insert_addrs _ _ _ _ _ _ _ _ Hord HI Hnd Hal) as [Hnd' _].
  destruct (Insert_spec _ _ _ _ _ _ _ _ Hord HI) as
    [(b & y & -> & Hin & He & Hc & _ & _)
    |(-> & Hns & _ & _ & xs & ys & _ & Hc' & _)].
  - exists y. unfold iterator_star. simpl.
    assert (Hin' : (b, y) ∈ cells t') by by rewrite Hc.
    destruct (deref_cells _ _ _ Hnd' Hin') as (n & -> & Hn & _).
    split_and!; [done|by eapply cells_inorder|done|].
    intros _. exists b. split_and!; [done|by eapply cells_addrs|].
    by destruct (deref_cells _ _ _ Hnd Hin) as (n' & -> & Hn' & _).
  - exists v. unfold iterator_star. simpl.
    assert (Hin' : (nx, v) ∈ cells t').
    { rewrite Hc'. apply elem_of_app. right. by left. }
    destruct (deref_cells _ _ _ Hnd' Hin') as (n & -> & Hn & _).
    split_and!; [done|by eapply cells_inorder|apply equiv_val_refl|done].
Qed.

End Order.


(** ** Iterators *)

Section Iterators.

Context {ValueType : Type} (less : ValueType → ValueType → bool).
Implicit Types (s : Set_ ValueType) (σ : gmap oid (Set_ ValueType)).
Implicit Types (it : iterator) (a : addr).


Lemma decrement_end σ s (o : oid) (fuel : nat) :
  σ !! o = Some s → tree_root_ s ≠ nullptr →
  iterator_decr fuel σ (Iterator o None) =
    Some (Iterator o (last (addrs (tree_root_ s)))).
Proof.
  intros Hs Hne. unfold iterator_decr. simpl. rewrite Hs. simpl.
  destruct (tree_root_ s) as [|ra rv rk rp rl rr]; [done|].
  by rewrite <- rightmost_addr.
Qed.

(** C9. For every non-empty set, decrementing [begin()] does not fault:
    the parent walk of [Prev] ends at the root and returns the null
    pointer, and the iterator equals [end()]. *)
Theorem decrement_begin_is_end (this : oid) σ s (fuel : nat) :
  σ !! this = Some s → valid less s →
  tree_root_ s ≠ nullptr → height (tree_root_ s) ≤ fuel →
  iterator_decr fuel σ (begin this s) = Some (end_ this).
Proof.
  intros Hs [_ Hnd Hpar] Hne Hfuel.
  unfold iterator_decr. simpl. rewrite Hs. simpl.
  rewrite leftmost_addr.
  assert (∃ a ys, addrs (tree_root_ s) = a :: ys) as (a & ys & Ha).
  { destruct (addrs (tree_root_ s)) as [|a ys] eqn:Ha; [|by eauto].
    destruct (tree_root_ s); [done|]. simpl in Ha. by destruct (addrs _). }
  rewrite Ha. simpl.
  by rewrite (Prev_spec (tree_root_ s) [] a ys fuel Hnd Hpar Ha Hfuel).
Qed.

(** C7. For every non-end iterator [it] over a set that is not modified
    meanwhile, if [it] has a predecessor (it is not [begin()]) then
    [--(++it) == it] and [++(--it) == it]. *)
Theorem increment_decrement_inverse σ s it a (fuel : nat) :
  σ !! iterator_owner it = Some s → valid less s →
  current_vertex it = Some a → a ∈ addrs (tree_root_ s) →
  iterator_ne it (begin (iterator_owner it) s) = true →
  height (tree_root_ s) ≤ fuel →
  (∃ it1 it2, iterator_incr fuel σ it = Some it1 ∧
              iterator_decr fuel σ it1 = Some it2 ∧
              iterator_eq it2 it = true) ∧
  (∃ it1 it2, iterator_decr fuel σ it = Some it1 ∧
              iterator_incr fuel σ it1 = Some it2 ∧
              iterator_eq it2 it = true).
Proof.
  intros Hs [_ Hnd Hpar] Hit Hin Hnb Hfuel.
  destruct it as [o vtx]. simpl in *. subst vtx.
  apply list_elem_of_split in Hin as (xs & ys & Ha).
  split.
  - exists (Iterator o (head ys)).
    exists (Iterator o (Some a)).
    split_and!; [| |apply iterator_eq_refl].
    { unfold iterator_incr. simpl. rewrite Hs. simpl.
      by rewrite (Next_spec _ xs a ys fuel Hnd Hpar Ha Hfuel). }
    destruct ys as [|y ys]; simpl.
    + rewrite (decrement_end σ s o fuel Hs), Ha, last_snoc; [done|].
      intros Hr. rewrite Hr in Ha. by destruct xs.
    + assert (Ha' : addrs (tree_root_ s) = (xs ++ [a]) ++ y :: ys).
      { by rewrite <- app_assoc. }
      unfold iterator_decr. simpl. rewrite Hs. simpl.
      rewrite (Prev_spec _ _ y ys fuel Hnd Hpar Ha' Hfuel). simpl.
      by rewrite last_snoc.
  - unfold iterator_ne in Hnb. simpl in Hnb.
    rewrite leftmost_addr, Ha in Hnb.
    rewrite (bool_decide_true (o = o)), orb_false_r in Hnb by done.
    apply negb_true_iff, bool_decide_eq_false in Hnb.
    destruct xs as [|x xs _] using rev_ind; [done|].
    exists (Iterator o (Some x)).
    exists (Iterator o (Some a)).
    split_and!; [| |apply iterator_eq_refl].
    + unfold iterator_decr. simpl. rewrite Hs. simpl.
      rewrite (Prev_spec _ _ a ys fuel Hnd Hpar Ha Hfuel). simpl.
      by rewrite last_snoc.
    + rewrite <- app_assoc in Ha. simpl in Ha.
      unfold iterator_incr. simpl. rewrite Hs. simpl.
      by rewrite (Next_spec _ xs x (a :: ys) fuel Hnd Hpar Ha Hfuel).
Qed.

End Iterators.

(** ** Moving a set *)

Section Moves.

Context {ValueType : Type}.
Implicit Types (s src dst : Set_ ValueType) (σ : gmap oid (Set_ ValueType)).

(** C10. For every set S, [S = std::move(S)] leaves S unchanged: the store
    is the same afterwards, so S has the same root, the same element count
    and the same element sequence. *)
Theorem self_move_assign_unchanged (this : oid) σ s :
  σ !! this = Some s →
  move_assign this this σ = Some σ ∧
  ∀ σ', move_assign this this σ = Some σ' →
    ∃ s', σ' !! this = Some s' ∧ tree_root_ s' = tree_root_ s ∧
          size s' = size s ∧ inorder (tree_root_ s') = inorder (tree_root_ s).
Proof.
  intros Hs.
  assert (Hm : move_assign this this σ = Some σ).
  { unfold move_assign, swap_roots, copy_size. rewrite Hs. simpl.
    rewrite lookup_insert_eq. simpl. rewrite insert_insert_eq.
    rewrite lookup_insert_eq. simpl. rewrite insert_insert_eq.
    destruct s as [root sz]. simpl. by rewrite insert_id. }
  split; [done|]. intros σ' Hσ'. rewrite Hm in Hσ'. injection Hσ' as <-.
  by exists s.
Qed.

(** C3 (amended). After move assignment from a distinct set S, and after
    move construction from S, the destination holds S's former tree, hence
    its elements, and S's element count; S holds the tree the destination
    had before, which after move construction is the empty tree, so that a
    traversal of S yields no elements there. *)
Theorem move_transfers_tree_and_count (this from : oid) σ src :
  σ !! from = Some src →
  (∀ dst, σ !! this = Some dst → this ≠ from →
     ∃ σ', move_assign this from σ = Some σ' ∧
       σ' !! this = Some (MkSet (tree_root_ src) (set_size_ src)) ∧
       ∃ src', σ' !! from = Some src' ∧ tree_root_ src' = tree_root_ dst) ∧
  (σ !! this = None →
     ∃ σ', move_construct this from σ = Some σ' ∧
       σ' !! this = Some (MkSet (tree_root_ src) (set_size_ src)) ∧
       ∃ src', σ' !! from = Some src' ∧ tree_root_ src' = nullptr ∧
               inorder (tree_root_ src') = []).
Proof.
  intros Hsrc. split.
  - intros dst Hdst Hne.
    unfold move_assign, swap_roots, copy_size. rewrite Hdst. simpl.
    repeat (first [rewrite lookup_insert_eq | rewrite lookup_insert_ne by done
                  | rewrite Hsrc]; simpl).
    eexists. split; [done|].
    repeat (first [rewrite lookup_insert_eq | rewrite lookup_insert_ne by done]).
    split; [done|]. by eexists.
  - intros Hnone. assert (Hne : this ≠ from) by congruence.
    unfold move_construct, swap_roots, copy_size. rewrite Hnone.
    repeat (first [rewrite lookup_insert_eq | rewrite lookup_insert_ne by done
                  | rewrite Hsrc]; simpl).
    eexists. split; [done|].
    repeat (first [rewrite lookup_insert_eq | rewrite lookup_insert_ne by done]).
    split; [done|]. by eexists.
Qed.

End Moves.

(** ** The integers as a value type, and the concrete scenarios *)

Lemma Z_ltb_StrictWeakOrder : StrictWeakOrder Z.ltb.
Proof.
  split.
  - intros x. apply Z.ltb_irrefl.
  - intros x y z Hxy%Z.ltb_lt Hyz%Z.ltb_lt. apply Z.ltb_lt. lia.
  - intros x y z.
    unfold equiv_val. rewrite !andb_true_iff, !negb_true_iff, !Z.ltb_ge. lia.
Qed.

Lemma sample_set_valid : valid Z.ltb sample_set.
Proof.
  split.
  - unfold ordered. vm_compute inorder. repeat constructor.
  - apply (bool_decide_unpack _). by vm_compute.
  - vm_compute. tauto.
Qed.

(** The scenario of the specification, run on the embedding. *)
Example specification_scenario :
  inorder (tree_root_ sample_set) = [1; 3; 4; 5; 7; 8; 9]%Z ∧
  size sample_set = 7%Z ∧
  iterator_star sample_set (lower_bound Z.ltb 1 sample_set 6%Z) = Some 7%Z ∧
  (erase Z.ltb sample_set 5%Z).1 = 1%Z ∧
  inorder (tree_root_ (erase Z.ltb sample_set 5%Z).2) = [1; 3; 4; 7; 8; 9]%Z ∧
  (erase Z.ltb (erase Z.ltb sample_set 5%Z).2 5%Z).1 = 0%Z ∧
  inorder (tree_root_ (erase Z.ltb (erase Z.ltb sample_set 5%Z).2 5%Z).2)
    = [1; 3; 4; 7; 8; 9]%Z.
Proof. by vm_compute. Qed.

(** C1. [insert] reports the opposite of what the claim (and the comment
    above [Set::insert]) says: inserting 5 into the empty set adds it and
    returns [false]; inserting 5 again adds nothing and returns [true]. *)
Theorem insert_flag_is_inverted :
  let first := insert Z.ltb 1 Set_default 5%Z 1 in
  let second := insert Z.ltb 1 first.1.2 5%Z first.2 in
  inorder (tree_root_ (@Set_default Z)) = [] ∧
  inorder (tree_root_ first.1.2) = [5%Z] ∧ first.1.1.2 = false ∧
  inorder (tree_root_ second.1.2) = [5%Z] ∧ second.1.1.2 = true.
Proof. by vm_compute. Qed.

(** C2. After inserting 2, 1, 3 the level invariant holds; erasing 3 leaves
    the node 2 on level 1 with its left child 1 on level 1 as well, against
    clause (b).  The traversal is still increasing. *)
Theorem erase_breaks_level_invariant :
  AA_levels (tree_root_ three_set) = true ∧
  tree_root_ (erase Z.ltb three_set 3%Z).2 = unskewed ∧
  inorder (tree_root_ (erase Z.ltb three_set 3%Z).2) = [1; 2]%Z ∧
  AA_levels (tree_root_ (erase Z.ltb three_set 3%Z).2) = false.
Proof. by vm_compute. Qed.

(** The sequence of the specification is the sequence of the source after
    a Skew of the node itself. *)
Lemma spec_rebalance_Skew {ValueType : Type} (vertex : Node ValueType) :
  spec_rebalance vertex = Erase_rotations (Skew vertex).
Proof. done. Qed.

(** C4. [Erase] does not apply Skew to the node itself.  On [unskewed],
    where the node and its left child share a level, the rotations of the
    source change nothing, while the sequence of the claim rotates the left
    child up and restores the level invariant. *)
Theorem erase_does_not_skew_the_node :
  DecreaseLevel (Cell 1 2%Z 2 None
                   (Cell 2 1%Z 1 (Some 1%positive) nullptr nullptr) nullptr)
    = unskewed ∧
  Erase_rotations unskewed = unskewed ∧
  spec_rebalance unskewed =
    Cell 2 1%Z 1 None nullptr (Cell 1 2%Z 1 (Some 2%positive) nullptr nullptr) ∧
  AA_levels (Erase_rotations unskewed) = false ∧
  AA_levels (spec_rebalance unskewed) = true.
Proof. by vm_compute. Qed.

(** C3, as stated, fails.  Move-assigning {10} (object 1) into {20}
    (object 2) leaves object 1 with the element 20 and the count 1; and
    move-constructing a new object 3 from object 1 leaves object 1 without
    elements but still with the count 1. *)
Lemma move_leaves_source_nonempty :
  (∃ σ', move_assign 2 1 two_sets = Some σ' ∧
         ¬ move_leaves_source_empty two_sets σ' 2 1) ∧
  (∃ σ', move_construct 3 1 two_sets = Some σ' ∧
         ¬ move_leaves_source_empty two_sets σ' 3 1).
Proof.
  split.
  - eexists. split; [by vm_compute|].
    intros (src & dst' & src' & _ & _ & H & _ & _ & _ & _ & Hin).
    vm_compute in H. injection H as <-. by vm_compute in Hin.
  - eexists. split; [by vm_compute|].
    intros (src & dst' & src' & _ & _ & H & _ & _ & Hsz & _).
    vm_compute in H. injection H as <-. by vm_compute in Hsz.
Qed.

(** ** The general theorems at the concrete scenarios *)

Ltac elem_cases H :=
  apply list_elem_of_In in H; vm_compute in H;
  repeat (destruct H as [H|H]; [subst|]); [..|destruct H].

Lemma sample_set_allocated : allocated sample_next (tree_root_ sample_set).
Proof. intros a Ha. elem_cases Ha; by vm_compute. Qed.

Lemma erase_witness :
  valid Z.ltb sample_set ∧
  stored Z.ltb (tree_root_ sample_set) 5%Z ∧
  (erase Z.ltb sample_set 5%Z).1 = 1%Z ∧
  ¬ stored Z.ltb (tree_root_ sample_set) 6%Z ∧
  (erase Z.ltb sample_set 6%Z).1 = 0%Z.
Proof.
  assert (H5 : stored Z.ltb (tree_root_ sample_set) 5%Z).
  { exists 5%Z. split; [|done]. apply list_elem_of_In. vm_compute. tauto. }
  assert (H6 : ¬ stored Z.ltb (tree_root_ sample_set) 6%Z).
  { intros (y & Hy & He). elem_cases Hy; by vm_compute in He. }
  split_and!; [apply sample_set_valid|done| |done|].
  - apply (erase_removes_present_ignores_absent Z.ltb Z_ltb_StrictWeakOrder
             sample_set 5%Z sample_set_valid). exact H5.
  - apply (erase_removes_present_ignores_absent Z.ltb Z_ltb_StrictWeakOrder
             sample_set 6%Z sample_set_valid). exact H6.
Defined.

Lemma lower_bound_witness :
  valid Z.ltb sample_set ∧
  (∃ y, y ∈ inorder (tree_root_ sample_set) ∧ (y <? 6)%Z = false) ∧
  ∃ x, iterator_star sample_set (lower_bound Z.ltb 1 sample_set 6%Z) = Some x ∧
       x ∈ inorder (tree_root_ sample_set) ∧ (x <? 6)%Z = false ∧
       ∀ y, y ∈ inorder (tree_root_ sample_set) →
            (y <? 6)%Z = false → (y <? x)%Z = false.
Proof.
  assert (H : ∃ y, y ∈ inorder (tree_root_ sample_set) ∧ (y <? 6)%Z = false).
  { exists 7%Z. split; [|done]. apply list_elem_of_In. vm_compute. tauto. }
  split_and!; [apply sample_set_valid|done|].
  apply (lower_bound_is_least_not_less Z.ltb Z_ltb_StrictWeakOrder
           1%positive sample_set 6%Z sample_set_valid). exact H.
Defined.

Lemma insert_iterator_witness :
  valid Z.ltb sample_set ∧ allocated sample_next (tree_root_ sample_set) ∧
  ∃ x, iterator_star (insert Z.ltb 1 sample_set 4%Z sample_next).1.2
         (insert Z.ltb 1 sample_set 4%Z sample_next).1.1.1 = Some x ∧
       x ∈ inorder (tree_root_ (insert Z.ltb 1 sample_set 4%Z sample_next).1.2) ∧
       equiv_val Z.ltb x 4%Z = true ∧
       (stored Z.ltb (tree_root_ sample_set) 4%Z →
          ∃ a, current_vertex (insert Z.ltb 1 sample_set 4%Z sample_next).1.1.1
                 = Some a ∧
               a ∈ addrs (tree_root_ sample_set) ∧
               iterator_star sample_set
                 (insert Z.ltb 1 sample_set 4%Z sample_next).1.1.1 = Some x).
Proof.
  split_and!; [apply sample_set_valid|apply sample_set_allocated|].
  apply (insert_iterator_points_at_value Z.ltb Z_ltb_StrictWeakOrder
           1%positive sample_set 4%Z sample_next
           sample_set_valid sample_set_allocated).
Defined.

Lemma decrement_begin_witness :
  sample_store !! 1%positive = Some sample_set ∧ valid Z.ltb sample_set ∧
  tree_root_ sample_set ≠ nullptr ∧ height (tree_root_ sample_set) ≤ 3 ∧
  iterator_decr 3 sample_store (begin 1 sample_set) = Some (end_ 1).
Proof.
  assert (H1 : sample_store !! 1%positive = Some sample_set) by done.
  assert (H2 : tree_root_ sample_set ≠ nullptr) by by vm_compute.
  assert (H3 : height (tree_root_ sample_set) ≤ 3) by (vm_compute; lia).
  split_and!; [done|apply sample_set_valid|done|done|].
  apply (decrement_begin_is_end Z.ltb 1%positive sample_store sample_set 3
           H1 sample_set_valid H2 H3).
Defined.

Lemma increment_decrement_witness :
  sample_store !! iterator_owner (Iterator 1 (Some 1%positive))
    = Some sample_set ∧
  valid Z.ltb sample_set ∧
  1%positive ∈ addrs (tree_root_ sample_set) ∧
  iterator_ne (Iterator 1 (Some 1%positive)) (begin 1 sample_set) = true ∧
  height (tree_root_ sample_set) ≤ 3 ∧
  (∃ it1 it2,
     iterator_incr 3 sample_store (Iterator 1 (Some 1%positive)) = Some it1 ∧
     iterator_decr 3 sample_store it1 = Some it2 ∧
     iterator_eq it2 (Iterator 1 (Some 1%positive)) = true) ∧
  (∃ it1 it2,
     iterator_decr 3 sample_store (Iterator 1 (Some 1%positive)) = Some it1 ∧
     iterator_incr 3 sample_store it1 = Some it2 ∧
     iterator_eq it2 (Iterator 1 (Some 1%positive)) = true).
Proof.
  assert (H1 : sample_store !! iterator_owner (Iterator 1 (Some 1%positive))
               = Some sample_set) by done.
  assert (H2 : 1%positive ∈ addrs (tree_root_ sample_set)).
  { apply list_elem_of_In. vm_compute. tauto. }
  assert (H3 : iterator_ne (Iterator 1 (Some 1%positive))
                 (begin 1 sample_set) = true) by by vm_compute.
  assert (H4 : height (tree_root_ sample_set) ≤ 3) by (vm_compute; lia).
  split_and!; [done|apply sample_set_valid|done|done|done|..];
    apply (increment_decrement_inverse Z.ltb sample_store sample_set
             (Iterator 1 (Some 1%positive)) 1%positive 3
             H1 sample_set_valid eq_refl H2 H3 H4).
Defined.

Lemma self_move_assign_witness :
  two_sets !! 1%positive = Some (MkSet (Cell 1 10%Z 1 None nullptr nullptr) 1) ∧
  move_assign 1 1 two_sets = Some two_sets.
Proof.
  assert (H : two_sets !! 1%positive
              = Some (MkSet (Cell 1 10%Z 1 None nullptr nullptr) 1)) by done.
  split; [done|].
  apply (self_move_assign_unchanged 1%positive two_sets _ H).
Defined.

Lemma move_transfers_witness :
  two_sets !! 1%positive = Some (MkSet (Cell 1 10%Z 1 None nullptr nullptr) 1) ∧
  (∃ σ', move_assign 2 1 two_sets = Some σ' ∧
     σ' !! 2%positive = Some (MkSet (Cell 1 10%Z 1 None nullptr nullptr) 1) ∧
     ∃ src', σ' !! 1%positive = Some src' ∧
             tree_root_ src' = Cell 2 20%Z 1 None nullptr nullptr) ∧
  (∃ σ', move_construct 3 1 two_sets = Some σ' ∧
     σ' !! 3%positive = Some (MkSet (Cell 1 10%Z 1 None nullptr nullptr) 1) ∧
     ∃ src', σ' !! 1%positive = Some src' ∧ tree_root_ src' = nullptr ∧
             inorder (tree_root_ src') = []).
Proof.
  assert (H : two_sets !! 1%positive
              = Some (MkSet (Cell 1 10%Z 1 None nullptr nullptr) 1)) by done.
  split_and!; [done| |].
  - apply (proj1 (move_transfers_tree_and_count 2%positive 1%positive
                    two_sets _ H)
             (MkSet (Cell 2 20%Z 1 None nullptr nullptr) 1)); done.
  - apply (proj2 (move_transfers_tree_and_count 3%positive 1%positive
                    two_sets _ H)). done.
Defined.

(** * Further properties of the code *)

(** ** Sizes, elements and cells under insert and erase *)

Section Elements.

Context {ValueType : Type} (less : ValueType → ValueType → bool).
Hypothesis SWO : StrictWeakOrder less.
Implicit Types (x y z v w : ValueType) (t l r : Node ValueType).
Implicit Types (s : Set_ ValueType) (a b : addr).

Lemma length_inorder_cells t : length (inorder t) = length (cells t).
Proof. by rewrite inorder_cells, length_fmap. Qed.

Lemma length_addrs_cells t : length (addrs t) = length (cells t).
Proof. by rewrite addrs_cells, length_fmap. Qed.

Lemma size_t_succ_idemp n : size_t (size_t n + 1) = size_t (n + 1).
Proof. unfold size_t. by rewrite Zplus_mod_idemp_l. Qed.

Lemma size_t_pred_idemp n : size_t (size_t n - 1) = size_t (n - 1).
Proof. unfold size_t. by rewrite Zminus_mod_idemp_l. Qed.

Lemma size_t_idemp n : size_t (size_t n) = size_t n.
Proof. unfold size_t. by rewrite Zmod_mod. Qed.

(** Two cells with equivalent values in an ordered tree are one cell. *)
Lemma ordered_cells_unique t a x b y :
  ordered less t → (a, x) ∈ cells t → (b, y) ∈ cells t →
  equiv_val less x y = true → (a, x) = (b, y).
Proof.
  unfold ordered. rewrite inorder_cells. intros Hs Ha Hb He.
  apply list_elem_of_split in Ha as (cs1 & cs2 & Hc). rewrite Hc in Hs, Hb.
  rewrite fmap_app, fmap_cons in Hs. simpl in Hs.
  apply StronglySorted_app in Hs as (Hcross & _ & Hs2).
  apply StronglySorted_cons in Hs2 as [Hs2 _]. rewrite Forall_forall in Hs2.
  apply elem_of_app in Hb as [Hb|[Hb|Hb]%elem_of_cons]; [|done|].
  - assert (Hyx : less y x = true).
    { apply Hcross; [|by left]. apply list_elem_of_fmap. by exists (b, y). }
    apply equiv_val_spec in He as [_ He]. congruence.
  - assert (Hxy : less x y = true).
    { apply Hs2. apply list_elem_of_fmap. by exists (b, y). }
    apply equiv_val_spec in He as [He _]. congruence.
Qed.

Lemma stored_equiv t v w :
  equiv_val less v w = true → stored less t v → stored less t w.
Proof.
  intros He (x & Hx & Hxv). exists x. split; [done|].
  by eapply (equiv_trans less SWO).
Qed.

(** What [insert] does to the elements, the count and the flag. *)
Lemma insert_elements (this : oid) s v nx :
  ordered less (tree_root_ s) →
  let r := insert less this s v nx in
  (stored less (tree_root_ s) v ∧
   cells (tree_root_ r.1.2) = cells (tree_root_ s) ∧
   set_size_ r.1.2 = set_size_ s ∧ r.2 = nx) ∨
  (¬ stored less (tree_root_ s) v ∧
   set_size_ r.1.2 = size_t (set_size_ s + 1) ∧ r.2 = Pos.succ nx ∧
   ∃ xs ys, cells (tree_root_ s) = xs ++ ys ∧
            cells (tree_root_ r.1.2) = xs ++ (nx, v) :: ys ∧
            Forall (λ c, less c.2 v = true) xs ∧
            Forall (λ c, less v c.2 = true) ys).
Proof.
  intros Hord. unfold insert.
  destruct (Insert less (tree_root_ s) v nx (set_size_ s))
    as [[[t' ins] nx'] sz'] eqn:HI. simpl.
  destruct (Insert_spec less SWO _ _ _ _ _ _ _ _ Hord HI) as
    [(b & y & _ & Hin & He & Hc & -> & ->)
    |(_ & Hns & -> & -> & xs & ys & Hc & Hc' & Hxs & Hys)].
  - left. split_and!; [|done..]. exists y.
    split; [by eapply cells_inorder|done].
  - right. split_and!; [done..|]. by exists xs, ys.
Qed.

(** X1. [insert(v)] leaves v present.  When v was already present the
    element sequence and the count are unchanged (a second insert of the
    same value changes nothing); when it was absent, v enters the sequence
    at its ordered position and the count grows by one. *)
Theorem insert_adds_value_once (this : oid) s v nx :
  ordered less (tree_root_ s) →
  stored less (tree_root_ (insert less this s v nx).1.2) v ∧
  (stored less (tree_root_ s) v →
     inorder (tree_root_ (insert less this s v nx).1.2) = inorder (tree_root_ s) ∧
     size (insert less this s v nx).1.2 = size s) ∧
  (¬ stored less (tree_root_ s) v →
     size (insert less this s v nx).1.2 = size_t (size s + 1) ∧
     ∃ xs ys, inorder (tree_root_ s) = xs ++ ys ∧
              inorder (tree_root_ (insert less this s v nx).1.2) = xs ++ v :: ys ∧
              Forall (λ y, less y v = true) xs ∧
              Forall (λ y, less v y = true) ys).
Proof.
  intros Hord. unfold size.
  destruct (insert_elements this s v nx Hord) as
    [(Hst & Hc & Hsz & _)|(Hns & Hsz & _ & xs & ys & Hc & Hc' & Hxs & Hys)].
  - split_and!; [|intros _; split; [|done]|done].
    + destruct Hst as (x & Hx & He). exists x. split; [|done].
      by rewrite inorder_cells, Hc, <- inorder_cells.
    + by rewrite !inorder_cells, Hc.
  - split_and!; [|done|intros _; split; [done|]].
    + exists v. split; [|by apply equiv_val_refl].
      rewrite inorder_cells, Hc', fmap_app, fmap_cons.
      apply elem_of_app. right. by left.
    + exists xs.*2, ys.*2. rewrite !inorder_cells, Hc, Hc', !fmap_app, fmap_cons.
      split_and!; [done|done|by apply Forall_fmap|by apply Forall_fmap].
Qed.

(** X2. [insert] does not move or change an existing cell: an iterator that
    stood on an element before the call stands on the same value after it,
    whether or not a cell was added. *)
Theorem insert_keeps_existing_cells (this : oid) s v nx it a :
  valid less s → allocated nx (tree_root_ s) →
  current_vertex it = Some a → a ∈ addrs (tree_root_ s) →
  a ∈ addrs (tree_root_ (insert less this s v nx).1.2) ∧
  is_Some (iterator_star s it) ∧
  iterator_star (insert less this s v nx).1.2 it = iterator_star s it.
Proof.
  intros [Hord Hnd _] Hal Hit Ha.
  assert (Hnd' : NoDup (addrs (tree_root_ (insert less this s v nx).1.2))).
  { unfold insert.
    destruct (Insert less (tree_root_ s) v nx (set_size_ s))
      as [[[t' ins] nx'] sz'] eqn:HI. simpl.
    by destruct (Insert_addrs less SWO _ _ _ _ _ _ _ _ Hord HI Hnd Hal). }
  rewrite addrs_cells in Ha. apply list_elem_of_fmap in Ha as ([a' x] & -> & Hc).
  simpl in *.
  assert (Hc' : (a', x) ∈ cells (tree_root_ (insert less this s v nx).1.2)).
  { destruct (insert_elements this s v nx Hord) as
      [(_ & -> & _)|(_ & _ & _ & xs & ys & Hxy & -> & _)]; [done|].
    rewrite Hxy in Hc. apply elem_of_app in Hc as [?|?];
      apply elem_of_app; [by left|right; by right]. }
  unfold iterator_star. rewrite Hit. simpl.
  destruct (deref_cells _ _ _ Hnd Hc) as (n & -> & Hn & _).
  destruct (deref_cells _ _ _ Hnd' Hc') as (n' & -> & Hn' & _).
  simpl. rewrite Hn, Hn'.
  split_and!; [by eapply cells_addrs|by eexists|done].
Qed.

Lemma insert_counted (this : oid) s v nx :
  ordered less (tree_root_ s) → counted s →
  counted (insert less this s v nx).1.2.
Proof.
  intros Hord Hcnt. unfold counted in *.
  destruct (insert_elements this s v nx Hord) as
    [(_ & Hc & -> & _)|(_ & -> & _ & xs & ys & Hc & Hc' & _)];
    rewrite !length_inorder_cells in *.
  - by rewrite Hc.
  - rewrite Hcnt, Hc, Hc', size_t_succ_idemp, !length_app. simpl.
    f_equal. lia.
Qed.

Lemma erase_counted s v :
  ordered less (tree_root_ s) → counted s → counted (erase less s v).2.
Proof.
  intros Hord Hcnt. unfold counted, erase in *.
  destruct (Erase_spec less SWO (tree_root_ s) v (set_size_ s) Hord)
    as [Hin Hsz].
  destruct (Erase less (tree_root_ s) v (set_size_ s)) as [t' sz'].
  simpl in *. destruct Hsz as [[Hst ->]|[Hns ->]].
  - destruct (filter_remove_equiv less SWO v _ Hord Hst)
      as (xs & x & ys & HL & _ & Hf & _).
    rewrite Hin, Hf, Hcnt, HL, size_t_pred_idemp, !length_app. simpl.
    f_equal. lia.
  - by rewrite Hin, (not_stored_filter less) by done.
Qed.

(** X3. After any sequence of inserts and erases on an initially empty
    set, [size()] is the number of elements of the tree (as a [size_t]),
    and, below 2^64 elements, [empty()] holds exactly when there is none. *)
Theorem size_counts_elements (this : oid) (ops : list (op ValueType)) :
  size (run less this ops).1 =
    size_t (Z.of_nat (length (inorder (tree_root_ (run less this ops).1)))) ∧
  ((Z.of_nat (length (inorder (tree_root_ (run less this ops).1))) < 2 ^ 64)%Z →
   empty (run less this ops).1 = true ↔
   inorder (tree_root_ (run less this ops).1) = []).
Proof.
  assert (Hc : counted (run less this ops).1 ∧
               ordered less (tree_root_ (run less this ops).1)).
  { unfold run.
    assert (H0 : counted (@Set_default ValueType, 1%positive).1 ∧
                 ordered less (tree_root_ (@Set_default ValueType, 1%positive).1)).
    { split; [done|constructor]. }
    revert H0. generalize (@Set_default ValueType, 1%positive).
    induction ops as [|o ops IH]; intros st H0; simpl; [done|].
    apply IH. destruct H0 as [Hcnt Hord]. destruct o as [v|v]; simpl.
    - pose proof (insert_counted this st.1 v st.2 Hord Hcnt) as H1.
      assert (H2 : ordered less (tree_root_ (insert less this st.1 v st.2).1.2)).
      { unfold insert.
        destruct (Insert less (tree_root_ st.1) v st.2 (set_size_ st.1))
          as [[[t' ins] nx'] sz'] eqn:HI. simpl.
        by eapply (Insert_ordered less SWO). }
      by destruct (insert less this st.1 v st.2) as [[[? ?] ?] ?].
    - split; [by apply erase_counted|].
      unfold erase.
      pose proof (Erase_ordered less SWO (tree_root_ st.1) v (set_size_ st.1)
                    Hord) as H.
      by destruct (Erase less (tree_root_ st.1) v (set_size_ st.1)). }
  destruct Hc as [Hcnt _]. unfold counted in Hcnt. unfold empty, size.
  split; [done|]. intros Hlt. rewrite Hcnt. unfold size_t, EMPTY_SIZE.
  rewrite Z.mod_small by lia.
  destruct (inorder _) as [|x xs]; simpl; [done|].
  split; [|done]. intros H. first [done|apply Z.eqb_eq in H; lia].
Qed.

(** X4. Inserting an absent value and erasing it again restores the element
    sequence; [erase] reports one removed element and the count is back
    (as a [size_t]). *)
Theorem insert_then_erase_restores (this : oid) s v nx :
  ordered less (tree_root_ s) → ¬ stored less (tree_root_ s) v →
  (erase less (insert less this s v nx).1.2 v).1 = 1%Z ∧
  inorder (tree_root_ (erase less (insert less this s v nx).1.2 v).2)
    = inorder (tree_root_ s) ∧
  size (erase less (insert less this s v nx).1.2 v).2 = size_t (size s).
Proof.
  intros Hord Hns.
  destruct (insert_elements this s v nx Hord) as
    [(Hst & _)|(_ & Hsz & _ & xs & ys & Hc & Hc' & Hxs & Hys)]; [done|].
  assert (Hord' : ordered less (tree_root_ (insert less this s v nx).1.2)).
  { unfold insert.
    destruct (Insert less (tree_root_ s) v nx (set_size_ s))
      as [[[t' ins] nx'] sz'] eqn:HI. simpl.
    by eapply (Insert_ordered less SWO). }
  set (s1 := (insert less this s v nx).1.2) in *.
  assert (Hst1 : stored less (tree_root_ s1) v).
  { exists v. split; [|by apply equiv_val_refl].
    rewrite inorder_cells, Hc', fmap_app, fmap_cons.
    apply elem_of_app. right. by left. }
  unfold erase, size.
  destruct (Erase_spec less SWO (tree_root_ s1) v (set_size_ s1) Hord')
    as [Hin Hsz1].
  destruct (Erase less (tree_root_ s1) v (set_size_ s1)) as [t2 sz2].
  simpl in *. destruct Hsz1 as [[_ ->]|[? _]]; [|done].
  split_and!.
  - apply size_t_erased.
  - rewrite Hin, !inorder_cells, Hc, Hc', !fmap_app, fmap_cons, filter_app.
    simpl. rewrite filter_cons_False by by rewrite equiv_val_refl.
    rewrite (keep_below less), (keep_above less);
      [done|by apply Forall_fmap|by apply Forall_fmap].
  - rewrite Hsz, size_t_pred_idemp. f_equal. lia.
Qed.

(** X5. [find(v)] stands on the stored element equivalent to v when there
    is one, and is [end()] when there is none. *)
Theorem find_reaches_equivalent_or_end (this : oid) s v :
  valid less s →
  (stored less (tree_root_ s) v →
     ∃ x, iterator_star s (find less this s v) = Some x ∧
          x ∈ inorder (tree_root_ s) ∧ equiv_val less x v = true) ∧
  (¬ stored less (tree_root_ s) v → find less this s v = end_ this).
Proof.
  intros [Hord Hnd _]. unfold find, end_.
  destruct (Find_stored less SWO (tree_root_ s) v Hord)
    as [(Hst & a & x & -> & Hin & He)|(Hns & ->)]; split; try done.
  intros _. exists x. unfold iterator_star. simpl.
  destruct (deref_cells _ _ _ Hnd Hin) as (n & -> & Hn & _).
  split_and!; [done|by eapply cells_inorder|done].
Qed.

(** X6. Looking a value up right after inserting it finds the cell that
    [insert] returned: [find(v) == insert(v).first]. *)
Theorem find_after_insert (this : oid) s v nx :
  ordered less (tree_root_ s) →
  iterator_eq (find less this (insert less this s v nx).1.2 v)
              (insert less this s v nx).1.1.1 = true.
Proof.
  intros Hord. apply iterator_eq_spec. unfold find, insert.
  destruct (Insert less (tree_root_ s) v nx (set_size_ s))
    as [[[t' ins] nx'] sz'] eqn:HI. simpl.
  pose proof (Insert_ordered less SWO _ _ _ _ _ _ _ _ Hord HI) as Hord'.
  assert (Hins : ∃ a x, ins = Some a ∧ (a, x) ∈ cells t' ∧
                        equiv_val less x v = true).
  { destruct (Insert_spec less SWO _ _ _ _ _ _ _ _ Hord HI) as
      [(b & y & -> & Hin & He & Hc & _)|(-> & _ & _ & _ & xs & ys & _ & Hc' & _)].
    - exists b, y. by rewrite Hc.
    - exists nx, v. split_and!; [done| |by apply (equiv_val_refl less SWO)].
      rewrite Hc'. apply elem_of_app. right. by left. }
  destruct Hins as (a & x & -> & Hin & He).
  destruct (Find_stored less SWO t' v Hord')
    as [(_ & b & y & -> & Hin' & He')|(Hns & _)].
  - assert (Hxy : equiv_val less x y = true).
    { eapply (equiv_trans less SWO); [done|]. by rewrite equiv_val_sym. }
    by injection (ordered_cells_unique _ _ _ _ _ Hord' Hin Hin' Hxy) as -> _.
  - destruct Hns. exists x. split; [by eapply cells_inorder|done].
Qed.

(** X7. After [erase(v)], [find(v)] is [end()], and every other value is
    present exactly when it was present before. *)
Theorem erase_then_find (this : oid) s v :
  ordered less (tree_root_ s) →
  find less this (erase less s v).2 v = end_ this ∧
  ∀ w, equiv_val less w v = false →
       stored less (tree_root_ (erase less s v).2) w ↔
       stored less (tree_root_ s) w.
Proof.
  intros Hord. unfold find, end_, erase.
  pose proof (Erase_ordered less SWO (tree_root_ s) v (set_size_ s) Hord) as Hord'.
  destruct (Erase_spec less SWO (tree_root_ s) v (set_size_ s) Hord) as [Hin _].
  destruct (Erase less (tree_root_ s) v (set_size_ s)) as [t' sz']. simpl in *.
  split.
  - destruct (Find_stored less SWO t' v Hord')
      as [((x & Hx & He) & _)|(_ & ->)]; [|done].
    rewrite Hin in Hx. apply list_elem_of_filter in Hx as [Hx _]. congruence.
  - intros w Hw. unfold stored. rewrite Hin. split.
    + intros (x & [_ Hx]%list_elem_of_filter & He). by exists x.
    + intros (x & Hx & He). exists x. split; [|done].
      apply list_elem_of_filter. split; [|done].
      destruct (equiv_val less x v) eqn:Hxv; [|done].
      rewrite equiv_val_sym in He.
      by rewrite (equiv_trans less SWO _ _ _ He Hxv) in Hw.
Qed.

Lemma Erase_absent_cells t v sz :
  ordered less t → ¬ stored less t v → cells (Erase less t v sz).1 = cells t.
Proof.
  revert sz. induction t as [|a x k p l IHl r IHr]; intros sz Hord Hns; [done|].
  pose proof (proj1 (ordered_Cell less SWO _ _ _ _ _ _) Hord) as (Hl & Hr & _).
  rewrite stored_Cell in Hns. simpl.
  destruct (less v x) eqn:Hvx; [|destruct (less x v) eqn:Hxv].
  - specialize (IHl sz Hl ltac:(naive_solver)).
    destruct (Erase less l v sz) as [l' sz']. simpl in *.
    by rewrite cells_Erase_rotations, cells_DecreaseLevel, <- IHl.
  - specialize (IHr sz Hr ltac:(naive_solver)).
    destruct (Erase less r v sz) as [r' sz']. simpl in *.
    by rewrite cells_Erase_rotations, cells_DecreaseLevel, <- IHr.
  - destruct Hns. right. left. by apply equiv_val_spec.
Qed.

(** X8. [erase] creates no cell and frees at most one.  When the value is
    absent every cell keeps its address and its value; when it is present
    exactly one address disappears and the others remain, in order. *)
Theorem erase_frees_one_cell s v :
  ordered less (tree_root_ s) →
  addrs (tree_root_ (erase less s v).2) `sublist_of` addrs (tree_root_ s) ∧
  (¬ stored less (tree_root_ s) v →
     cells (tree_root_ (erase less s v).2) = cells (tree_root_ s)) ∧
  (stored less (tree_root_ s) v →
     S (length (addrs (tree_root_ (erase less s v).2)))
       = length (addrs (tree_root_ s))).
Proof.
  intros Hord. unfold erase.
  pose proof (Erase_addrs less (tree_root_ s) v (set_size_ s)) as Hsub.
  pose proof (Erase_absent_cells (tree_root_ s) v (set_size_ s) Hord) as Habs.
  destruct (Erase_spec less SWO (tree_root_ s) v (set_size_ s) Hord) as [Hin _].
  destruct (Erase less (tree_root_ s) v (set_size_ s)) as [t' sz']. simpl in *.
  split_and!; [done..|]. intros Hst.
  destruct (filter_remove_equiv less SWO v _ Hord Hst)
    as (xs & x & ys & HL & _ & Hf & _).
  rewrite !length_addrs_cells, <- !length_inorder_cells, Hin, Hf, HL, !length_app.
  simpl. lia.
Qed.

(** X9. After any sequence of inserts and erases on an initially empty
    set, the in-order traversal is strictly increasing, no two cells share
    an address, every cell lies below the allocator's next address, and
    every parent link names the cell that holds the child (the root's is
    null). *)
Theorem inserts_and_erases_keep_links (this : oid) (ops : list (op ValueType)) :
  ordered less (tree_root_ (run less this ops).1) ∧
  NoDup (addrs (tree_root_ (run less this ops).1)) ∧
  parents_ok None (tree_root_ (run less this ops).1) ∧
  allocated (run less this ops).2 (tree_root_ (run less this ops).1).
Proof.
  destruct (run_valid less SWO this ops) as [[Ho Hn Hp] Ha]. done.
Qed.

Lemma insert_stored (this : oid) s v nx w :
  ordered less (tree_root_ s) →
  stored less (tree_root_ (insert less this s v nx).1.2) w ↔
  stored less (tree_root_ s) w ∨ equiv_val less v w = true.
Proof.
  intros Hord.
  destruct (insert_elements this s v nx Hord) as
    [(Hst & Hc & _)|(_ & _ & _ & xs & ys & Hc & Hc' & _)];
    unfold stored; rewrite !inorder_cells.
  - rewrite Hc. split; [by left|]. intros [?|He]; [done|].
    pose proof (stored_equiv _ _ _ He Hst) as H.
    unfold stored in H. by rewrite inorder_cells in H.
  - rewrite Hc, Hc', !fmap_app, fmap_cons. simpl. split.
    + intros (x & [Hx|[->|Hx]%elem_of_cons]%elem_of_app & He);
        [left|by right|left]; exists x; (split; [|done]);
        apply elem_of_app; [by left|by right].
    + intros [(x & Hx & He)|He].
      * exists x. split; [|done].
        apply elem_of_app in Hx as [?|?]; apply elem_of_app;
          [by left|right; by right].
      * exists v. split; [|done]. apply elem_of_app. right. by left.
Qed.

Lemma insert_inorder_from (this : oid) s v nx x :
  ordered less (tree_root_ s) →
  x ∈ inorder (tree_root_ (insert less this s v nx).1.2) →
  x ∈ inorder (tree_root_ s) ∨ x = v.
Proof.
  intros Hord.
  destruct (insert_elements this s v nx Hord) as
    [(Hst & Hc & _)|(_ & _ & _ & xs & ys & Hc & Hc' & _)];
    rewrite !inorder_cells.
  - rewrite Hc. by left.
  - rewrite Hc, Hc', !fmap_app, fmap_cons. simpl.
    intros [Hx|[->|Hx]%elem_of_cons]%elem_of_app; [left|by right|left];
      apply elem_of_app; [by left|by right].
Qed.

Lemma construct_step_insert (this : oid) (st : Set_ ValueType * addr) v :
  construct_step less st v =
    ((insert less this st.1 v st.2).1.2, (insert less this st.1 v st.2).2).
Proof.
  unfold construct_step, insert.
  by destruct (Insert less (tree_root_ st.1) v st.2 (set_size_ st.1))
    as [[[? ?] ?] ?].
Qed.

Lemma construct_fold (elements : list ValueType) (st : Set_ ValueType * addr) :
  valid less st.1 → allocated st.2 (tree_root_ st.1) → counted st.1 →
  let st' := foldl (construct_step less) st elements in
  valid less st'.1 ∧ allocated st'.2 (tree_root_ st'.1) ∧ counted st'.1 ∧
  (∀ w, stored less (tree_root_ st'.1) w ↔
        stored less (tree_root_ st.1) w ∨
        ∃ x, x ∈ elements ∧ equiv_val less x w = true) ∧
  (∀ x, x ∈ inorder (tree_root_ st'.1) →
        x ∈ inorder (tree_root_ st.1) ∨ x ∈ elements).
Proof.
  revert st. induction elements as [|v elements IH]; intros st Hv Hal Hcnt; simpl.
  { split_and!; [done..| |by left]. intros w. split; [by left|].
    by intros [?|(x & ?%elem_of_nil & _)]. }
  pose proof (valid_ordered _ _ Hv) as Hord.
  rewrite (construct_step_insert 1%positive).
  destruct (insert_valid less SWO 1%positive st.1 v st.2 Hv Hal) as [Hv' Hal'].
  pose proof (insert_counted 1%positive st.1 v st.2 Hord Hcnt) as Hcnt'.
  destruct (IH (_, _) Hv' Hal' Hcnt') as (H1 & H2 & H3 & H4 & H5).
  split_and!; [done..| |].
  - intros w. rewrite H4. simpl. rewrite insert_stored by done. split.
    + intros [[?|?]|(x & Hx & He)]; [by left| |].
      * right. exists v. split; [by left|done].
      * right. exists x. split; [by right|done].
    + intros [?|(x & [->|Hx]%elem_of_cons & He)]; [by left; left|by left; right|].
      right. by exists x.
  - intros x Hx. destruct (H5 x Hx) as [Hx'|Hx']; [|right; by right].
    simpl in Hx'. apply insert_inorder_from in Hx'; [|done].
    destruct Hx' as [?| ->]; [by left|right; by left].
Qed.

(** X10. The set built by the range constructor (and, with the same loop,
    by the initializer-list constructor) holds exactly the values of the
    input up to equivalence, each once: its traversal is strictly
    increasing, every stored element comes from the input, a value is
    present exactly when the input has an equivalent one, and [size()]
    counts the elements kept. *)
Theorem constructors_collect_values (elements : list ValueType) (nx : addr) :
  Set_initializer_list less elements nx = Set_range less elements nx ∧
  valid less (Set_range less elements nx).1 ∧
  counted (Set_range less elements nx).1 ∧
  (∀ w, stored less (tree_root_ (Set_range less elements nx).1) w ↔
        ∃ x, x ∈ elements ∧ equiv_val less x w = true) ∧
  (∀ x, x ∈ inorder (tree_root_ (Set_range less elements nx).1) →
        x ∈ elements).
Proof.
  split; [done|]. unfold Set_range.
  destruct (construct_fold elements (Set_default, nx))
    as (H1 & _ & H3 & H4 & H5); simpl.
  - apply (Set_default_valid less).
  - by intros a ?%elem_of_nil.
  - done.
  - split_and!; [done..| |].
    + intros w. rewrite H4. simpl. split; [|by right].
      by intros [(x & ?%elem_of_nil & _)|?].
    + intros x Hx. by destruct (H5 x Hx) as [?%elem_of_nil|?].
Qed.

End Elements.

(** ** Stepping through the elements *)

Section Steps.

Context {ValueType : Type} (less : ValueType → ValueType → bool).
Hypothesis SWO : StrictWeakOrder less.
Implicit Types (s : Set_ ValueType) (σ : gmap oid (Set_ ValueType)).
Implicit Types (it : iterator) (a b o : addr) (x y z : ValueType).
Implicit Types (cs : list (addr * ValueType)).

Lemma star_of_cell s o a x :
  NoDup (addrs (tree_root_ s)) → (a, x) ∈ cells (tree_root_ s) →
  iterator_star s (Iterator o (Some a)) = Some x.
Proof.
  intros Hnd Hin. unfold iterator_star. simpl.
  by destruct (deref_cells _ _ _ Hnd Hin) as (n & -> & Hn & _).
Qed.

Lemma addrs_of_cells_split s cs1 a x cs2 :
  cells (tree_root_ s) = cs1 ++ (a, x) :: cs2 →
  addrs (tree_root_ s) = cs1.*1 ++ a :: cs2.*1.
Proof. intros H. by rewrite addrs_cells, H, fmap_app, fmap_cons. Qed.

Lemma inorder_of_cells_split s cs1 a x cs2 :
  cells (tree_root_ s) = cs1 ++ (a, x) :: cs2 →
  inorder (tree_root_ s) = cs1.*2 ++ x :: cs2.*2.
Proof. intros H. by rewrite inorder_cells, H, fmap_app, fmap_cons. Qed.

(** X11. [++it] moves from an element to the next one of the increasing
    sequence, whose value is greater, and from the last element to
    [end()]. *)
Theorem increment_reaches_next_element σ s o a x cs1 cs2 (fuel : nat) :
  σ !! o = Some s → valid less s →
  cells (tree_root_ s) = cs1 ++ (a, x) :: cs2 →
  height (tree_root_ s) ≤ fuel →
  match cs2 with
  | [] => iterator_incr fuel σ (Iterator o (Some a)) = Some (end_ o)
  | (b, y) :: _ =>
      iterator_incr fuel σ (Iterator o (Some a)) = Some (Iterator o (Some b)) ∧
      iterator_star s (Iterator o (Some b)) = Some y ∧
      less x y = true
  end.
Proof.
  intros Hs [Hord Hnd Hpar] Hc Hfuel.
  pose proof (addrs_of_cells_split s _ _ _ _ Hc) as Ha.
  assert (Hinc : iterator_incr fuel σ (Iterator o (Some a))
                 = Some (Iterator o (head cs2.*1))).
  { unfold iterator_incr. simpl. rewrite Hs. simpl.
    by rewrite (Next_spec _ _ a _ fuel Hnd Hpar Ha Hfuel). }
  destruct cs2 as [|[b y] cs2]; [done|]. split_and!; [done| |].
  - apply star_of_cell; [done|]. rewrite Hc.
    apply elem_of_app. right. right. by left.
  - unfold ordered in Hord. rewrite (inorder_of_cells_split s _ _ _ _ Hc) in Hord.
    apply StronglySorted_app in Hord as (_ & _ & Hord).
    apply StronglySorted_cons in Hord as [Hord _].
    rewrite Forall_forall in Hord. apply Hord. by left.
Qed.

(** X12. [--it] moves from an element that has a predecessor to that
    predecessor, whose value is smaller. *)
Theorem decrement_reaches_previous_element σ s o a x b y cs1 cs2 (fuel : nat) :
  σ !! o = Some s → valid less s →
  cells (tree_root_ s) = cs1 ++ (b, y) :: (a, x) :: cs2 →
  height (tree_root_ s) ≤ fuel →
  iterator_decr fuel σ (Iterator o (Some a)) = Some (Iterator o (Some b)) ∧
  iterator_star s (Iterator o (Some b)) = Some y ∧
  less y x = true.
Proof.
  intros Hs [Hord Hnd Hpar] Hc Hfuel.
  assert (Hc' : cells (tree_root_ s) = (cs1 ++ [(b, y)]) ++ (a, x) :: cs2).
  { by rewrite <- app_assoc. }
  pose proof (addrs_of_cells_split s _ _ _ _ Hc') as Ha.
  split_and!.
  - unfold iterator_decr. simpl. rewrite Hs. simpl.
    rewrite (Prev_spec _ _ a _ fuel Hnd Hpar Ha Hfuel).
    rewrite fmap_app. simpl. by rewrite last_snoc.
  - apply star_of_cell; [done|]. rewrite Hc. apply elem_of_app. right. by left.
  - unfold ordered in Hord. rewrite (inorder_of_cells_split s _ _ _ _ Hc) in Hord.
    apply StronglySorted_app in Hord as (_ & _ & Hord).
    apply StronglySorted_cons in Hord as [Hord _].
    rewrite Forall_forall in Hord. apply Hord. by left.
Qed.

(** X13. [--end()] stands on the greatest element of a non-empty set; on
    an empty set it dereferences the null root and is a fault, and so is
    [++end()] on any set. *)
Theorem decrement_end_reaches_maximum σ s o (fuel : nat) :
  σ !! o = Some s → valid less s →
  iterator_incr fuel σ (end_ o) = None ∧
  (tree_root_ s = nullptr → iterator_decr fuel σ (end_ o) = None) ∧
  (∀ cs b y, cells (tree_root_ s) = cs ++ [(b, y)] →
     iterator_decr fuel σ (end_ o) = Some (Iterator o (Some b)) ∧
     iterator_star s (Iterator o (Some b)) = Some y ∧
     ∀ z, z ∈ inorder (tree_root_ s) → less y z = false).
Proof.
  intros Hs [Hord Hnd Hpar]. split_and!.
  - unfold iterator_incr, end_. simpl. by rewrite Hs.
  - intros Hr. unfold iterator_decr, end_. simpl. rewrite Hs. simpl.
    by rewrite Hr.
  - intros cs b y Hc. split_and!.
    + unfold end_. rewrite (decrement_end σ s o fuel Hs).
      * rewrite (addrs_of_cells_split s _ _ _ _ Hc). simpl.
        by rewrite last_snoc.
      * intros Hr. rewrite Hr in Hc. by destruct cs.
    + apply star_of_cell; [done|]. rewrite Hc. apply elem_of_app. right. by left.
    + unfold ordered in Hord.
      rewrite (inorder_of_cells_split s _ _ _ _ Hc) in Hord |- *.
      apply StronglySorted_app in Hord as (Hcross & _ & _).
      intros z [Hz|[->|[]%elem_of_nil]%elem_of_cons]%elem_of_app.
      * apply (less_asym less SWO). apply Hcross; [done|by left].
      * apply (less_irrefl less SWO).
Qed.

(** X14. [begin()] is [end()] on an empty tree and otherwise stands on the
    least element. *)
Theorem begin_is_minimum (this : oid) s :
  valid less s →
  (tree_root_ s = nullptr → begin this s = end_ this) ∧
  (∀ x rest, inorder (tree_root_ s) = x :: rest →
     iterator_star s (begin this s) = Some x ∧
     Forall (λ y, less x y = true) rest).
Proof.
  intros [Hord Hnd _]. split.
  - intros Hr. unfold begin, end_. by rewrite Hr.
  - intros x rest Hin. split.
    + unfold begin. rewrite leftmost_addr.
      destruct (cells (tree_root_ s)) as [|[a x'] cs] eqn:Hc.
      { by rewrite inorder_cells, Hc in Hin. }
      rewrite inorder_cells, Hc in Hin. injection Hin as -> _.
      rewrite addrs_cells, Hc. simpl. apply star_of_cell; [done|].
      rewrite Hc. by left.
    + unfold ordered in Hord. rewrite Hin in Hord.
      by apply StronglySorted_cons in Hord as [? _].
Qed.

(** X15. The postfix steps move the iterator as the prefix steps do.
    [it++] returns the iterator it was called on, and so does [it--] on an
    element; but [it--] on [end()] returns the iterator after the step,
    which stands on the last element and differs from [end()]. *)
Theorem postfix_steps_follow_prefix σ s it (fuel : nat) :
  σ !! iterator_owner it = Some s →
  iterator_post_incr fuel σ it = (λ it', (it, it')) <$> iterator_incr fuel σ it ∧
  (current_vertex it ≠ None →
     iterator_post_decr fuel σ it
       = (λ it', (it, it')) <$> iterator_decr fuel σ it) ∧
  (current_vertex it = None → tree_root_ s ≠ nullptr →
     ∃ moved, iterator_decr fuel σ it = Some moved ∧
              iterator_post_decr fuel σ it = Some (moved, moved) ∧
              iterator_ne moved it = true).
Proof.
  intros Hs. destruct it as [o vtx]. simpl in *. split_and!.
  - unfold iterator_post_incr, iterator_incr. simpl. rewrite Hs. simpl.
    by destruct (Next fuel (tree_root_ s) vtx).
  - intros Hv. unfold iterator_post_decr, iterator_decr. simpl. rewrite Hs.
    simpl. destruct vtx as [a|]; [|done].
    by destruct (Prev fuel (tree_root_ s) (Some a)).
  - intros -> Hr.
    assert (Hsome : is_Some (addr_of (rightmost (tree_root_ s)))).
    { rewrite rightmost_addr.
      destruct (last (addrs (tree_root_ s))) eqn:Hl; [by eexists|].
      apply last_None in Hl. destruct (tree_root_ s); [done|].
      simpl in Hl. by destruct (addrs _). }
    destruct Hsome as [b Hb]. exists (Iterator o (Some b)).
    unfold iterator_post_decr, iterator_decr. cbn [current_vertex iterator_owner].
    rewrite Hs. cbn [mbind option_bind].
    destruct (tree_root_ s) as [|ra rv rk rp rl rr]; [done|].
    by rewrite Hb.
Qed.

End Steps.

(** ** Copies and moves *)

Section Copies.

Context {ValueType : Type} (less : ValueType → ValueType → bool).
Implicit Types (t l r : Node ValueType) (p : option addr) (nx a : addr).
Implicit Types (s src dst cp : Set_ ValueType) (σ : gmap oid (Set_ ValueType)).

Lemma skeleton_set_parent t p : skeleton (set_parent t p) = skeleton t.
Proof. by destruct t. Qed.

Lemma inorder_skeleton t : inorder (skeleton t) = inorder t.
Proof.
  induction t as [|a v k p l IHl r IHr]; simpl; [done|]. by rewrite IHl, IHr.
Qed.

Lemma skeleton_inorder t1 t2 : skeleton t1 = skeleton t2 → inorder t1 = inorder t2.
Proof. intros H. by rewrite <- (inorder_skeleton t1), H, inorder_skeleton. Qed.

Lemma level_of_skeleton t : level_of (skeleton t) = level_of t.
Proof. by destruct t. Qed.

Lemma AA_levels_skeleton t : AA_levels (skeleton t) = AA_levels t.
Proof.
  induction t as [|a v k p l IHl r IHr]; simpl; [done|].
  rewrite IHl, IHr, !level_of_skeleton. do 3 f_equal.
  destruct r; simpl; [done|]. by rewrite level_of_skeleton.
Qed.

Lemma addrs_set_parent t p : addrs (set_parent t p) = addrs t.
Proof. by destruct t. Qed.

(** What [Copy] builds: the same values, levels and shape, on cells
    numbered from [nx] on, with consistent parent links and a null parent
    at the root. *)
Lemma Copy_spec t nx :
  skeleton (Copy t nx).1 = skeleton t ∧
  (nx ≤ (Copy t nx).2)%positive ∧
  (∀ a, a ∈ addrs (Copy t nx).1 → (nx ≤ a)%positive ∧ (a < (Copy t nx).2)%positive) ∧
  NoDup (addrs (Copy t nx).1) ∧
  parents_ok None (Copy t nx).1.
Proof.
  revert nx. induction t as [|b v k p l IHl r IHr]; intros nx; simpl.
  { split_and!; [done|lia|by intros a ?%elem_of_nil|constructor|done]. }
  destruct (IHl (Pos.succ nx)) as (Hl1 & Hl2 & Hl3 & Hl4 & Hl5).
  destruct (Copy l (Pos.succ nx)) as [l' nx1]. simpl in *.
  destruct (IHr nx1) as (Hr1 & Hr2 & Hr3 & Hr4 & Hr5).
  destruct (Copy r nx1) as [r' nx2]. simpl in *.
  rewrite !skeleton_set_parent, !addrs_set_parent, Hl1, Hr1.
  split_and!; [done|lia| | |done| |].
  - intros a [Ha|[->|Ha]%elem_of_cons]%elem_of_app.
    + destruct (Hl3 a Ha). lia.
    + lia.
    + destruct (Hr3 a Ha). lia.
  - apply NoDup_app. split_and!; [done| |].
    + intros a Ha [->|Ha']%elem_of_cons.
      * destruct (Hl3 _ Ha). lia.
      * destruct (Hl3 _ Ha), (Hr3 _ Ha'). lia.
    + apply NoDup_cons. split; [|done]. intros Ha. destruct (Hr3 _ Ha). lia.
  - by eapply parents_ok_set_parent.
  - by eapply parents_ok_set_parent.
Qed.

Lemma Copy_valid src nx :
  valid less src → allocated nx (tree_root_ src) →
  let cp := MkSet (Copy (tree_root_ src) nx).1 (set_size_ src) in
  skeleton (tree_root_ cp) = skeleton (tree_root_ src) ∧
  inorder (tree_root_ cp) = inorder (tree_root_ src) ∧
  size cp = size src ∧
  valid less cp ∧
  allocated (Copy (tree_root_ src) nx).2 (tree_root_ cp) ∧
  (∀ a, a ∈ addrs (tree_root_ cp) → a ∉ addrs (tree_root_ src)).
Proof.
  intros [Hord Hnd Hpar] Hal. simpl.
  destruct (Copy_spec (tree_root_ src) nx) as (H1 & H2 & H3 & H4 & H5).
  pose proof (skeleton_inorder _ _ H1) as Hin.
  split_and!; [done..| | |].
  - split; simpl; [|done..]. unfold ordered. by rewrite Hin.
  - intros a Ha. by destruct (H3 a Ha).
  - intros a Ha Ha'. destruct (H3 a Ha). apply Hal in Ha'. lia.
Qed.

(** X16. The copy constructor makes the new object an independent copy:
    the same values, levels and shape, hence the same elements, and the
    same count; its cells are new ones, none shared with the source, with
    consistent parent links; the source and every other object are left
    as they were. *)
Theorem copy_constructor_makes_independent_copy (this from : oid) σ src nx :
  σ !! from = Some src → σ !! this = None →
  valid less src → allocated nx (tree_root_ src) →
  ∃ σ' nx' cp,
    copy_construct this from σ nx = Some (σ', nx') ∧
    σ' !! this = Some cp ∧
    skeleton (tree_root_ cp) = skeleton (tree_root_ src) ∧
    inorder (tree_root_ cp) = inorder (tree_root_ src) ∧
    size cp = size src ∧
    valid less cp ∧ allocated nx' (tree_root_ cp) ∧
    (∀ a, a ∈ addrs (tree_root_ cp) → a ∉ addrs (tree_root_ src)) ∧
    (∀ o, o ≠ this → σ' !! o = σ !! o).
Proof.
  intros Hsrc Hnone Hv Hal. assert (Hne : this ≠ from) by congruence.
  destruct (Copy_valid src nx Hv Hal) as (H1 & H2 & H3 & H4 & H5 & H6).
  unfold copy_construct. rewrite Hnone.
  repeat (first [rewrite lookup_insert_eq | rewrite lookup_insert_ne by done
                | rewrite Hsrc]; simpl).
  destruct (Copy (tree_root_ src) nx) as [root nx'] eqn:HC. simpl in *.
  repeat (first [rewrite lookup_insert_eq | rewrite lookup_insert_ne by done
                | rewrite Hsrc]; simpl).
  eexists _, _, _. split; [done|]. rewrite lookup_insert_eq.
  split_and!; [done..|]. intros o Ho.
  by rewrite !lookup_insert_ne by done.
Qed.

(** X17. Copy assignment of an object to itself changes nothing and
    allocates nothing; copy assignment from a different object makes the
    destination an independent copy of the source, as the copy constructor
    does, and leaves the source and every other object as they were. *)
Theorem copy_assignment_copies_or_keeps (this from : oid) σ src dst nx :
  σ !! from = Some src → σ !! this = Some dst →
  valid less src → allocated nx (tree_root_ src) →
  (from = this → copy_assign this from σ nx = Some (σ, nx)) ∧
  (from ≠ this →
     ∃ σ' nx' cp,
       copy_assign this from σ nx = Some (σ', nx') ∧
       σ' !! this = Some cp ∧
       skeleton (tree_root_ cp) = skeleton (tree_root_ src) ∧
       inorder (tree_root_ cp) = inorder (tree_root_ src) ∧
       size cp = size src ∧
       valid less cp ∧ allocated nx' (tree_root_ cp) ∧
       (∀ a, a ∈ addrs (tree_root_ cp) → a ∉ addrs (tree_root_ src)) ∧
       (∀ o, o ≠ this → σ' !! o = σ !! o)).
Proof.
  intros Hsrc Hdst Hv Hal. split.
  - intros ->. unfold copy_assign. rewrite Hdst. simpl.
    by rewrite decide_True.
  - intros Hne.
    destruct (Copy_valid src nx Hv Hal) as (H1 & H2 & H3 & H4 & H5 & H6).
    unfold copy_assign. rewrite Hdst, Hsrc. simpl.
    rewrite decide_False by done.
    repeat (first [rewrite lookup_insert_eq | rewrite lookup_insert_ne by done
                  | rewrite Hsrc]; simpl).
    destruct (Copy (tree_root_ src) nx) as [root nx'] eqn:HC. simpl in *.
    repeat (first [rewrite lookup_insert_eq | rewrite lookup_insert_ne by done
                  | rewrite Hsrc]; simpl).
    eexists _, _, _. split; [done|]. rewrite lookup_insert_eq.
    split_and!; [done..|]. intros o Ho.
    by rewrite !lookup_insert_ne by done.
Qed.

(** X18. Neither move resets or swaps the count of the source: after move
    assignment the source holds the destination's former tree under its own
    old count, and after move construction it holds no cell but still
    reports its old count.  No other object changes. *)
Theorem move_keeps_source_count (this from : oid) σ src :
  σ !! from = Some src →
  (∀ dst, σ !! this = Some dst → this ≠ from →
     ∃ σ', move_assign this from σ = Some σ' ∧
       σ' !! from = Some (MkSet (tree_root_ dst) (set_size_ src)) ∧
       ∀ o, o ≠ this → o ≠ from → σ' !! o = σ !! o) ∧
  (σ !! this = None →
     ∃ σ', move_construct this from σ = Some σ' ∧
       σ' !! from = Some (MkSet nullptr (set_size_ src)) ∧
       ∀ o, o ≠ this → o ≠ from → σ' !! o = σ !! o).
Proof.
  intros Hsrc. split.
  - intros dst Hdst Hne.
    unfold move_assign, swap_roots, copy_size. rewrite Hdst. simpl.
    repeat (first [rewrite lookup_insert_eq | rewrite lookup_insert_ne by done
                  | rewrite Hsrc]; simpl).
    eexists. split; [done|].
    repeat (first [rewrite lookup_insert_eq | rewrite lookup_insert_ne by done]).
    split; [done|]. intros o Ho1 Ho2. by rewrite !lookup_insert_ne by done.
  - intros Hnone. assert (Hne : this ≠ from) by congruence.
    unfold move_construct, swap_roots, copy_size. rewrite Hnone.
    repeat (first [rewrite lookup_insert_eq | rewrite lookup_insert_ne by done
                  | rewrite Hsrc]; simpl).
    eexists. split; [done|].
    repeat (first [rewrite lookup_insert_eq | rewrite lookup_insert_ne by done]).
    split; [done|]. intros o Ho1 Ho2. by rewrite !lookup_insert_ne by done.
Qed.

End Copies.

(** ** The level invariant under insert *)

Section Levels.

Context {ValueType : Type}.
Implicit Types (t l r : Node ValueType) (p : option addr) (k : Z).

Lemma AA_levels_Cell a v k p l r :
  AA_levels (Cell a v k p l r) = true ↔
  k = (level_of l + 1)%Z ∧
  (level_of r = k ∨ level_of r = (k - 1)%Z) ∧
  (level_of (right_of r) < k)%Z ∧
  AA_levels l = true ∧ AA_levels r = true.
Proof.
  simpl. rewrite !andb_true_iff, orb_true_iff, !Z.eqb_eq, Z.ltb_lt. tauto.
Qed.

Lemma AA_levels_nonneg t : AA_levels t = true → (0 ≤ level_of t)%Z.
Proof.
  induction t as [|a v k p l IHl r _]; [done|].
  intros (-> & _ & _ & Hl & _)%AA_levels_Cell. simpl. specialize (IHl Hl). lia.
Qed.

Lemma AA_levels_right_le t :
  AA_levels t = true → (level_of (right_of t) ≤ level_of t)%Z.
Proof.
  destruct t as [|a v k p l r]; [done|].
  intros (_ & Hr & _)%AA_levels_Cell. simpl. lia.
Qed.

Lemma level_of_set_parent t p : level_of (set_parent t p) = level_of t.
Proof. by destruct t. Qed.

Lemma right_of_set_parent t p : right_of (set_parent t p) = right_of t.
Proof. by destruct t. Qed.

Lemma AA_levels_set_parent t p : AA_levels (set_parent t p) = AA_levels t.
Proof. by destruct t. Qed.

Lemma size_t_small k : (0 ≤ k < 2 ^ 64)%Z → size_t k = k.
Proof. intros H. unfold size_t. by apply Z.mod_small. Qed.

Lemma Skew_noop a x k p l r :
  level_of l ≠ k → Skew (Cell a x k p l r) = Cell a x k p l r.
Proof.
  intros H. destruct l as [|sa sv sk sp sl sr]; [done|].
  unfold Skew. simpl in *. by rewrite (proj2 (Z.eqb_neq sk k)).
Qed.

Lemma Skew_rotate a x k p sa sv sp sl sr r :
  Skew (Cell a x k p (Cell sa sv k sp sl sr) r)
  = Cell sa sv k p sl (Cell a x k (Some sa) (set_parent sr (Some a)) r).
Proof. unfold Skew. by rewrite Z.eqb_refl. Qed.

Lemma Split_noop a x k p l r :
  level_of (right_of r) ≠ k → Split (Cell a x k p l r) = Cell a x k p l r.
Proof.
  intros H. destruct r as [|sa sv sk sp sl [|ra rv rk rp rl rr]]; [done..|].
  unfold Split. simpl in *. by rewrite (proj2 (Z.eqb_neq k rk)).
Qed.

Lemma Split_rotate a x k p l sa sv sk sp sl srr :
  (0 < k)%Z → level_of srr = k →
  Split (Cell a x k p l (Cell sa sv sk sp sl srr))
  = Cell sa sv (size_t (sk + 1)) p
      (Cell a x k (Some sa) l (set_parent sl (Some a))) srr.
Proof.
  intros Hk H. destruct srr as [|ra rv rk rp rl rr]; simpl in *; [lia|].
  unfold Split. subst rk. by rewrite Z.eqb_refl.
Qed.

Ltac norm :=
  simpl level_of; simpl right_of;
  rewrite ?level_of_set_parent, ?right_of_set_parent, ?AA_levels_set_parent.

Lemma Skew_Split_left a x k p l l' r :
  AA_levels (Cell a x k p l r) = true → (k + 1 < 2 ^ 64)%Z →
  Insert_levels l l' →
  Insert_levels (Cell a x k p l r)
    (Split (Skew (Cell a x k p (set_parent l' (Some a)) r))).
Proof.
  intros HN Hk [Hl' Hlev].
  pose proof (AA_levels_nonneg _ HN) as Hk0.
  pose proof HN as (Hkl & Hr & Hrr & Hl & HAr)%AA_levels_Cell.
  pose proof (AA_levels_nonneg _ Hl) as Hl0.
  pose proof (AA_levels_nonneg _ HAr) as Hr0.
  simpl in Hk0.
  destruct Hlev as [Hsame|(Hup & Hnoh & _)].
  - rewrite Skew_noop by (rewrite level_of_set_parent; lia).
    rewrite Split_noop by lia.
    split; [|by left]. apply AA_levels_Cell; norm. split_and!; [lia|done..].
  - destruct l' as [|sa sv sk sp sl sr]; simpl in Hup; [lia|].
    assert (sk = k) as -> by lia.
    pose proof Hl' as (Hsl & Hsr & Hsrr & HAsl & HAsr)%AA_levels_Cell.
    pose proof (AA_levels_right_le _ HAsr) as Hsr_le.
    simpl in Hnoh. simpl set_parent. rewrite Skew_rotate.
    destruct (decide (level_of r = k)) as [Hrk|Hrk].
    + rewrite Split_rotate by (done || lia).
      rewrite size_t_small by lia.
      split.
      * apply AA_levels_Cell; norm.
        pose proof (AA_levels_right_le _ HAr).
        split_and!; [done|lia|lia| |done].
        apply AA_levels_Cell; norm.
        split_and!; [lia|lia|lia|done|done].
      * right. simpl. split_and!; [done|lia|by right].
    + rewrite Split_noop by (simpl; lia).
      split; [|by left]. apply AA_levels_Cell; norm.
      split_and!; [done|by left|lia|done|].
      apply AA_levels_Cell; norm.
      split_and!; [lia|lia|done|done|done].
Qed.

Lemma Skew_Split_right a x k p l r r' :
  AA_levels (Cell a x k p l r) = true → (k + 1 < 2 ^ 64)%Z →
  Insert_levels r r' →
  Insert_levels (Cell a x k p l r)
    (Split (Skew (Cell a x k p l (set_parent r' (Some a))))).
Proof.
  intros HN Hk [Hr' Hlev].
  pose proof (AA_levels_nonneg _ HN) as Hk0.
  pose proof HN as (Hkl & Hr & Hrr & Hl & HAr)%AA_levels_Cell.
  pose proof (AA_levels_nonneg _ Hl) as Hl0.
  pose proof (AA_levels_nonneg _ HAr) as Hr0.
  pose proof (AA_levels_right_le _ Hr') as Hr'le.
  simpl in Hk0.
  rewrite Skew_noop by lia.
  assert (Hr'k : level_of r' = k ∨ level_of r' = (k - 1)%Z).
  { destruct Hlev as [->|(-> & _ & [->|Heq])]; [done|simpl in *; lia|].
    destruct Hr as [Hr|Hr]; [|lia].
    exfalso. lia. }
  destruct (decide (level_of (right_of r') = k)) as [Hrrk|Hrrk].
  - destruct r' as [|sa sv sk sp sl srr]; simpl in Hrrk, Hr'le; [lia|].
    pose proof Hr' as (Hsl & Hsr & Hsrr & HAsl & HAsrr)%AA_levels_Cell.
    pose proof (AA_levels_right_le _ HAsl) as Hsl_le.
    pose proof (AA_levels_right_le _ HAsrr) as Hsrr_le.
    assert (sk = k) as -> by (simpl in Hr'k; lia).
    assert (Hsame : level_of r = k).
    { destruct Hlev as [H|(H & Hn & _)]; simpl in *; lia. }
    simpl set_parent. rewrite Split_rotate by (done || lia).
    rewrite size_t_small by lia.
    split.
    + apply AA_levels_Cell; norm. split_and!; [done|lia|lia| |done].
      apply AA_levels_Cell; norm.
      split_and!; [done|lia|lia|done|done].
    + right. simpl. split_and!; [done|lia|].
      right. destruct r as [|ra rv rk' rp rl rr]; simpl in *; lia.
  - rewrite Split_noop by by rewrite right_of_set_parent.
    split; [|by left]. apply AA_levels_Cell; norm.
    split_and!; [done|done|lia|done|done].
Qed.

Variable less : ValueType → ValueType → bool.

Lemma Insert_levels_spec t v nx sz :
  AA_levels t = true → (level_of t + 1 < 2 ^ 64)%Z →
  Insert_levels t (Insert less t v nx sz).1.1.1.
Proof.
  induction t as [|a x k p l IHl r IHr]; intros HA Hk; simpl.
  { unfold BASIC_LEVEL. split; [done|]. right. simpl.
    split_and!; [done|lia|by left]. }
  pose proof HA as (Hkl & Hr & _ & Hl & HAr)%AA_levels_Cell.
  pose proof (AA_levels_nonneg _ Hl). pose proof (AA_levels_nonneg _ HAr).
  simpl in Hk.
  destruct (less v x); [|destruct (less x v)].
  - specialize (IHl Hl ltac:(lia)).
    destruct (Insert less l v nx sz) as [[[l' ?] ?] ?]. simpl in *.
    by apply Skew_Split_left.
  - specialize (IHr HAr ltac:(lia)).
    destruct (Insert less r v nx sz) as [[[r' ?] ?] ?]. simpl in *.
    by apply Skew_Split_right.
  - simpl. split; [done|by left].
Qed.

(** X19. [insert] keeps the AA-tree level invariant (on a tree whose root
    level can still be incremented as a [size_t]), and the level of the
    root stays or grows by one. *)
Theorem insert_keeps_level_invariant (this : oid) (s : Set_ ValueType) v nx :
  AA_levels (tree_root_ s) = true →
  (level_of (tree_root_ s) + 1 < 2 ^ 64)%Z →
  AA_levels (tree_root_ (insert less this s v nx).1.2) = true ∧
  (level_of (tree_root_ s)
     ≤ level_of (tree_root_ (insert less this s v nx).1.2)
     ≤ level_of (tree_root_ s) + 1)%Z.
Proof.
  intros HA Hk.
  pose proof (Insert_levels_spec (tree_root_ s) v nx (set_size_ s) HA Hk) as H.
  unfold insert.
  destruct (Insert less (tree_root_ s) v nx (set_size_ s)) as [[[t' ?] ?] ?].
  simpl in *. destruct H as [H1 [H2|(H2 & _)]]; split; (done || lia).
Qed.

(** An AA-tree of level k has height at most 2k and at least 2^k - 1
    elements. *)
Lemma AA_levels_height t :
  AA_levels t = true →
  (Z.of_nat (height t) ≤ 2 * level_of t)%Z ∧
  ((level_of (right_of t) < level_of t)%Z →
   (Z.of_nat (height t) ≤ 2 * level_of t - 1)%Z).
Proof.
  induction t as [|a x k p l IHl r IHr]; intros HA; simpl.
  { split; [done|lia]. }
  pose proof HA as (Hkl & Hr & Hrr & Hl & HAr)%AA_levels_Cell.
  destruct (IHl Hl) as [Hhl _]. destruct (IHr HAr) as [Hhr Hhr'].
  split.
  - destruct Hr as [Hr|Hr]; [specialize (Hhr' ltac:(lia))|]; lia.
  - intros Hlt. lia.
Qed.

Lemma AA_levels_size t :
  AA_levels t = true →
  (2 ^ level_of t ≤ Z.of_nat (length (inorder t)) + 1)%Z.
Proof.
  induction t as [|a x k p l IHl r IHr]; intros HA; simpl; [done|].
  pose proof HA as (Hkl & Hr & Hrr & Hl & HAr)%AA_levels_Cell.
  pose proof (AA_levels_nonneg _ Hl) as Hl0.
  specialize (IHl Hl). specialize (IHr HAr).
  rewrite length_app. simpl.
  assert (2 ^ (k - 1) ≤ 2 ^ level_of r)%Z as Hmono.
  { apply Z.pow_le_mono_r; lia. }
  replace k with ((k - 1) + 1)%Z at 1 by lia.
  rewrite Z.pow_add_r by lia.
  replace (level_of l) with (k - 1)%Z in IHl by lia. lia.
Qed.

Lemma construct_levels (elements : list ValueType) (st : Set_ ValueType * addr) :
  AA_levels (tree_root_ st.1) = true →
  (level_of (tree_root_ st.1) + Z.of_nat (length elements) + 1 ≤ 2 ^ 64)%Z →
  AA_levels (tree_root_ (foldl (construct_step less) st elements).1) = true ∧
  (level_of (tree_root_ (foldl (construct_step less) st elements).1)
     ≤ level_of (tree_root_ st.1) + Z.of_nat (length elements))%Z.
Proof.
  revert st. induction elements as [|v elements IH]; intros st HA Hk; simpl.
  { split; [done|lia]. }
  simpl length in Hk.
  pose proof (Insert_levels_spec (tree_root_ st.1) v st.2 (set_size_ st.1) HA
                ltac:(lia)) as H.
  assert (Hstep : AA_levels (tree_root_ (construct_step less st v).1) = true ∧
    (level_of (tree_root_ (construct_step less st v).1)
       ≤ level_of (tree_root_ st.1) + 1)%Z).
  { unfold construct_step.
    destruct (Insert less (tree_root_ st.1) v st.2 (set_size_ st.1))
      as [[[t' ?] ?] ?]. simpl in *.
    destruct H as [H1 [H2|(H2 & _)]]; split; (done || lia). }
  destruct Hstep as [HA' Hlev].
  destruct (IH (construct_step less st v) HA' ltac:(lia)) as [H1 H2].
  split; [done|lia].
Qed.

(** X20. A set built by the range constructor from fewer than 2^64 - 1
    values satisfies the level invariant and is balanced: the height of the
    tree is at most twice the level of the root, and a root of level k
    carries at least 2^k - 1 elements. *)
Theorem constructed_tree_is_balanced (elements : list ValueType) (nx : addr) :
  (Z.of_nat (length elements) + 1 < 2 ^ 64)%Z →
  AA_levels (tree_root_ (Set_range less elements nx).1) = true ∧
  (Z.of_nat (height (tree_root_ (Set_range less elements nx).1))
     ≤ 2 * level_of (tree_root_ (Set_range less elements nx).1))%Z ∧
  (2 ^ level_of (tree_root_ (Set_range less elements nx).1)
     ≤ Z.of_nat (length (inorder (tree_root_ (Set_range less elements nx).1))) + 1)%Z.
Proof.
  intros Hlen. unfold Set_range.
  destruct (construct_levels elements (Set_default, nx)) as [HA _]; simpl;
    [done|lia|].
  split_and!; [done|by apply AA_levels_height|by apply AA_levels_size].
Qed.

Lemma parents_ok_set_parent_id p t : parents_ok p t → set_parent t p = t.
Proof. destruct t; [done|]. simpl. by intros (-> & _). Qed.

Lemma AA_levels_DecreaseLevel t :
  AA_levels t = true → (level_of t < 2 ^ 64)%Z → DecreaseLevel t = t.
Proof.
  destruct t as [|a x k p l r]; [done|]. intros HA Hk.
  pose proof HA as (Hkl & Hr & _ & Hl & HAr)%AA_levels_Cell.
  pose proof (AA_levels_nonneg _ Hl). pose proof (AA_levels_nonneg _ HAr).
  simpl in Hk. unfold DecreaseLevel.
  destruct l as [|la lv lk lp ll lr], r as [|ra rv rk rp rl rr]; simpl in *.
  - rewrite Z.gtb_ltb. destruct (Z.ltb_spec 1 k); [lia|done].
  - rewrite Z.gtb_ltb. destruct (Z.ltb_spec 1 k); [lia|done].
  - rewrite Z.gtb_ltb. destruct (Z.ltb_spec 1 k); [lia|done].
  - rewrite size_t_small by lia. rewrite Z.gtb_ltb.
    destruct (Z.ltb_spec (lk `min` rk + 1) k); [lia|done].
Qed.

Lemma AA_levels_Erase_rotations t :
  AA_levels t = true → Erase_rotations t = t.
Proof.
  destruct t as [|a x k p l r]; [done|]. intros HA.
  pose proof HA as (Hkl & Hr & Hrr & Hl & HAr)%AA_levels_Cell.
  unfold Erase_rotations. simpl right_of.
  destruct r as [|ra rv rk rp rl rr].
  - by rewrite Split_noop by (simpl in *; lia).
  - pose proof HAr as (Hrl & Hrr1 & Hrr2 & HArl & HArr)%AA_levels_Cell.
    pose proof (AA_levels_nonneg _ HArl).
    rewrite (Skew_noop ra) by lia. simpl.
    destruct rr as [|qa qv qk qp ql qr].
    + rewrite Split_noop by (simpl in *; lia). simpl.
      by rewrite Split_noop by (simpl in *; lia).
    + pose proof HArr as (Hql & _ & _ & HAql & _)%AA_levels_Cell.
      pose proof (AA_levels_nonneg _ HAql).
      rewrite (Skew_noop qa) by lia. simpl.
      rewrite Split_noop by (simpl in *; lia). simpl.
      by rewrite Split_noop by (simpl in *; lia).
Qed.

(** X21. On a tree that satisfies the level invariant and whose parent
    links are consistent, [insert] of a value that is already present
    changes nothing at all: the tree, the count and the allocator are the
    same afterwards, and the returned iterator is the one [find] gives. *)
Theorem insert_present_changes_nothing (this : oid) (s : Set_ ValueType) v nx a :
  AA_levels (tree_root_ s) = true → parents_ok None (tree_root_ s) →
  Find less (tree_root_ s) v = Some a →
  insert less this s v nx = (find less this s v, true, s, nx).
Proof.
  intros HA Hp Hf.
  assert (H : ∀ t p sz b, AA_levels t = true → parents_ok p t →
                Find less t v = Some b →
                Insert less t v nx sz = (t, Some b, nx, sz)).
  { clear HA Hp Hf.
    induction t as [|c x k q l IHl r IHr]; intros p sz b HA Hp Hf;
      simpl in Hp, Hf |- *; [done|].
    pose proof HA as (Hkl & Hr & Hrr & Hl & HAr)%AA_levels_Cell.
    destruct Hp as (-> & Hpl & Hpr).
    destruct (less v x); [|destruct (less x v)].
    - rewrite (IHl _ sz b Hl Hpl Hf). rewrite (parents_ok_set_parent_id _ _ Hpl).
      by rewrite Skew_noop, Split_noop by lia.
    - rewrite (IHr _ sz b HAr Hpr Hf). rewrite (parents_ok_set_parent_id _ _ Hpr).
      by rewrite Skew_noop, Split_noop by lia.
    - congruence. }
  unfold insert, find. rewrite (H _ None (set_size_ s) a HA Hp Hf), Hf.
  rewrite Z.eqb_refl. by destruct s.
Qed.

(** X22. On a tree that satisfies the level invariant, [erase] of a value
    that [Find] does not reach changes nothing at all and returns 0. *)
Theorem erase_absent_changes_nothing (s : Set_ ValueType) v :
  AA_levels (tree_root_ s) = true → (level_of (tree_root_ s) < 2 ^ 64)%Z →
  Find less (tree_root_ s) v = None →
  erase less s v = (0%Z, s).
Proof.
  intros HA Hk Hf.
  assert (H : ∀ t sz, AA_levels t = true → (level_of t < 2 ^ 64)%Z →
                Find less t v = None → Erase less t v sz = (t, sz)).
  { clear HA Hk Hf.
    induction t as [|c x k q l IHl r IHr]; intros sz HA Hk Hf;
      simpl in Hk, Hf |- *; [done|].
    pose proof HA as (Hkl & Hr & Hrr & Hl & HAr)%AA_levels_Cell.
    pose proof (AA_levels_nonneg _ Hl). pose proof (AA_levels_nonneg _ HAr).
    destruct (less v x); [|destruct (less x v)]; [| |done].
    - rewrite (IHl sz Hl ltac:(lia) Hf).
      by rewrite AA_levels_DecreaseLevel, AA_levels_Erase_rotations.
    - rewrite (IHr sz HAr ltac:(lia) Hf).
      by rewrite AA_levels_DecreaseLevel, AA_levels_Erase_rotations. }
  unfold erase. rewrite (H _ (set_size_ s) HA Hk Hf).
  rewrite size_t_kept. by destruct s.
Qed.

End Levels.

(** ** The rotation primitives *)

Section Rotations.

Context {ValueType : Type}.
Implicit Types (t : Node ValueType) (p : option addr).

(** X23. [Skew], [Split] and [DecreaseLevel] keep the in-order sequence of
    cells (addresses and values) and the consistency of the parent links,
    and the root they return has the parent link the old root had; on a
    tree that satisfies the level invariant [Skew] and [Split] return it
    unchanged. *)
Theorem rotations_keep_sequence_and_links t p :
  cells (Skew t) = cells t ∧ cells (Split t) = cells t ∧
  cells (DecreaseLevel t) = cells t ∧
  parent_of (Skew t) = parent_of t ∧ parent_of (Split t) = parent_of t ∧
  (parents_ok p t →
     parents_ok p (Skew t) ∧ parents_ok p (Split t) ∧
     parents_ok p (DecreaseLevel t)) ∧
  (AA_levels t = true → Skew t = t ∧ Split t = t).
Proof.
  split_and!.
  - apply cells_Skew.
  - apply cells_Split.
  - apply cells_DecreaseLevel.
  - apply parent_of_Skew.
  - apply parent_of_Split.
  - intros Hp. split_and!.
    + by apply parents_ok_Skew.
    + by apply parents_ok_Split.
    + by apply parents_ok_DecreaseLevel.
  - intros HA. destruct t as [|a x k q l r]; [done|].
    pose proof HA as (Hkl & Hr & Hrr & Hl & HAr)%AA_levels_Cell.
    split; [apply Skew_noop|apply Split_noop]; lia.
Qed.

End Rotations.

(** ** Destruction *)

Section Destruction.

Context {ValueType : Type}.
Implicit Types (t : Node ValueType).

(** X24. [Delete] frees every cell of the tree and nothing else, each cell
    once when the cells have distinct addresses; on the null tree it frees
    nothing. *)
Theorem Delete_frees_each_cell_once t :
  Delete t ≡ₚ addrs t ∧
  (NoDup (addrs t) → NoDup (Delete t)) ∧
  (t = nullptr → Delete t = []).
Proof.
  assert (H : Delete t ≡ₚ addrs t).
  { induction t as [|a v k p l IHl r IHr]; simpl; [done|].
    rewrite IHl, IHr. apply Permutation_app_head.
    by rewrite <- Permutation_cons_append. }
  split_and!; [done| |by intros ->].
  intros Hnd. by rewrite H.
Qed.

End Destruction.

(** ** The further properties at the concrete scenarios *)

Lemma sample_set_ordered : ordered Z.ltb (tree_root_ sample_set).
Proof. unfold ordered. vm_compute inorder. repeat constructor. Qed.

Lemma sample_set_lacks_6 : ¬ stored Z.ltb (tree_root_ sample_set) 6%Z.
Proof. intros (y & Hy & He). elem_cases Hy; by vm_compute in He. Qed.

Lemma sample_set_holds_5 : stored Z.ltb (tree_root_ sample_set) 5%Z.
Proof. exists 5%Z. split; [|done]. apply list_elem_of_In. vm_compute. tauto. Qed.

Lemma ten_set_valid : valid Z.ltb (MkSet (Cell 1 10%Z 1 None nullptr nullptr) 1).
Proof.
  split.
  - unfold ordered. simpl. repeat constructor.
  - apply (bool_decide_unpack _). by vm_compute.
  - by vm_compute.
Qed.

Lemma ten_set_allocated :
  allocated 3 (tree_root_ (MkSet (Cell 1 10%Z 1 None nullptr nullptr) 1)).
Proof. intros a Ha. elem_cases Ha; by vm_compute. Qed.

Lemma insert_adds_value_once_witness :
  stored Z.ltb (tree_root_ (insert Z.ltb 1 sample_set 6%Z sample_next).1.2) 6%Z.
Proof.
  apply (insert_adds_value_once Z.ltb Z_ltb_StrictWeakOrder 1%positive
           sample_set 6%Z sample_next sample_set_ordered).
Defined.

Lemma insert_keeps_existing_cells_witness :
  iterator_star (insert Z.ltb 1 sample_set 6%Z sample_next).1.2
    (Iterator 1 (Some 1%positive))
  = iterator_star sample_set (Iterator 1 (Some 1%positive)).
Proof.
  assert (H : 1%positive ∈ addrs (tree_root_ sample_set)).
  { apply list_elem_of_In. vm_compute. tauto. }
  apply (insert_keeps_existing_cells Z.ltb Z_ltb_StrictWeakOrder 1%positive
           sample_set 6%Z sample_next (Iterator 1 (Some 1%positive)) 1%positive
           sample_set_valid sample_set_allocated eq_refl H).
Defined.

Lemma size_counts_elements_witness :
  size (run Z.ltb 1%positive sample_ops).1 =
    size_t (Z.of_nat (length (inorder
      (tree_root_ (run Z.ltb 1%positive sample_ops).1)))).
Proof.
  apply (size_counts_elements Z.ltb Z_ltb_StrictWeakOrder 1%positive sample_ops).
Defined.

Lemma insert_then_erase_restores_witness :
  inorder (tree_root_
    (erase Z.ltb (insert Z.ltb 1 sample_set 6%Z sample_next).1.2 6%Z).2)
  = inorder (tree_root_ sample_set).
Proof.
  apply (insert_then_erase_restores Z.ltb Z_ltb_StrictWeakOrder 1%positive
           sample_set 6%Z sample_next sample_set_ordered sample_set_lacks_6).
Defined.

Lemma find_reaches_equivalent_or_end_witness :
  (∃ x, iterator_star sample_set (find Z.ltb 1 sample_set 5%Z) = Some x ∧
        x ∈ inorder (tree_root_ sample_set) ∧ equiv_val Z.ltb x 5%Z = true) ∧
  find Z.ltb 1 sample_set 6%Z = end_ 1.
Proof.
  split.
  - apply (proj1 (find_reaches_equivalent_or_end Z.ltb Z_ltb_StrictWeakOrder
                    1%positive sample_set 5%Z sample_set_valid)
             sample_set_holds_5).
  - apply (proj2 (find_reaches_equivalent_or_end Z.ltb Z_ltb_StrictWeakOrder
                    1%positive sample_set 6%Z sample_set_valid)
             sample_set_lacks_6).
Defined.

Lemma find_after_insert_witness :
  iterator_eq (find Z.ltb 1 (insert Z.ltb 1 sample_set 6%Z sample_next).1.2 6%Z)
              (insert Z.ltb 1 sample_set 6%Z sample_next).1.1.1 = true.
Proof.
  apply (find_after_insert Z.ltb Z_ltb_StrictWeakOrder 1%positive sample_set
           6%Z sample_next sample_set_ordered).
Defined.

Lemma erase_then_find_witness :
  find Z.ltb 1 (erase Z.ltb sample_set 5%Z).2 5%Z = end_ 1.
Proof.
  apply (erase_then_find Z.ltb Z_ltb_StrictWeakOrder 1%positive sample_set 5%Z
           sample_set_ordered).
Defined.

Lemma erase_frees_one_cell_witness :
  S (length (addrs (tree_root_ (erase Z.ltb sample_set 5%Z).2)))
  = length (addrs (tree_root_ sample_set)).
Proof.
  apply (erase_frees_one_cell Z.ltb Z_ltb_StrictWeakOrder sample_set 5%Z
           sample_set_ordered). exact sample_set_holds_5.
Defined.

Lemma inserts_and_erases_keep_links_witness :
  parents_ok None
    (tree_root_ (run Z.ltb 1%positive (sample_ops ++ [op_erase 5%Z])).1).
Proof.
  apply (inserts_and_erases_keep_links Z.ltb Z_ltb_StrictWeakOrder 1%positive
           (sample_ops ++ [op_erase 5%Z])).
Defined.

Lemma constructors_collect_values_witness :
  counted (Set_range Z.ltb [5; 3; 8; 3; 5]%Z 1).1 ∧
  ∀ x, x ∈ inorder (tree_root_ (Set_range Z.ltb [5; 3; 8; 3; 5]%Z 1).1) →
       x ∈ [5; 3; 8; 3; 5]%Z.
Proof.
  split;
    apply (constructors_collect_values Z.ltb Z_ltb_StrictWeakOrder
             [5; 3; 8; 3; 5]%Z 1%positive).
Defined.

Lemma sample_set_height : height (tree_root_ sample_set) ≤ 3.
Proof. vm_compute. lia. Qed.

Lemma increment_reaches_next_element_witness :
  iterator_incr 3 sample_store (Iterator 1 (Some 1%positive))
    = Some (Iterator 1 (Some 6%positive)) ∧
  iterator_star sample_set (Iterator 1 (Some 6%positive)) = Some 7%Z ∧
  (5 <? 7)%Z = true.
Proof.
  apply (increment_reaches_next_element Z.ltb sample_store sample_set
           1%positive 1%positive 5%Z
           [(4%positive, 1%Z); (2%positive, 3%Z); (5%positive, 4%Z)]
           [(6%positive, 7%Z); (3%positive, 8%Z); (7%positive, 9%Z)] 3
           eq_refl sample_set_valid eq_refl sample_set_height).
Defined.

Lemma decrement_reaches_previous_element_witness :
  iterator_decr 3 sample_store (Iterator 1 (Some 1%positive))
    = Some (Iterator 1 (Some 5%positive)) ∧
  iterator_star sample_set (Iterator 1 (Some 5%positive)) = Some 4%Z ∧
  (4 <? 5)%Z = true.
Proof.
  apply (decrement_reaches_previous_element Z.ltb sample_store sample_set
           1%positive 1%positive 5%Z 5%positive 4%Z
           [(4%positive, 1%Z); (2%positive, 3%Z)]
           [(6%positive, 7%Z); (3%positive, 8%Z); (7%positive, 9%Z)] 3
           eq_refl sample_set_valid eq_refl sample_set_height).
Defined.

Lemma decrement_end_reaches_maximum_witness :
  iterator_incr 3 sample_store (end_ 1) = None ∧
  iterator_decr 3 sample_store (end_ 1) = Some (Iterator 1 (Some 7%positive)) ∧
  iterator_star sample_set (Iterator 1 (Some 7%positive)) = Some 9%Z.
Proof.
  destruct (decrement_end_reaches_maximum Z.ltb Z_ltb_StrictWeakOrder
              sample_store sample_set 1%positive 3 eq_refl sample_set_valid)
    as (H1 & _ & H3).
  destruct (H3 [(4%positive, 1%Z); (2%positive, 3%Z); (5%positive, 4%Z);
                (1%positive, 5%Z); (6%positive, 7%Z); (3%positive, 8%Z)]
               7%positive 9%Z eq_refl) as (H4 & H5 & _).
  split_and!; [exact H1|exact H4|exact H5].
Defined.

Lemma begin_is_minimum_witness :
  iterator_star sample_set (begin 1 sample_set) = Some 1%Z.
Proof.
  apply (proj2 (begin_is_minimum Z.ltb 1%positive sample_set sample_set_valid)
           1%Z [3; 4; 5; 7; 8; 9]%Z eq_refl).
Defined.

Lemma postfix_steps_follow_prefix_witness :
  ∃ moved, iterator_decr 3 sample_store (end_ 1) = Some moved ∧
           iterator_post_decr 3 sample_store (end_ 1) = Some (moved, moved) ∧
           iterator_ne moved (end_ 1) = true.
Proof.
  assert (H : tree_root_ sample_set ≠ nullptr) by by vm_compute.
  apply (postfix_steps_follow_prefix sample_store sample_set (end_ 1) 3
           eq_refl); [done|exact H].
Defined.

Lemma copy_constructor_witness :
  ∃ σ' nx' cp,
    copy_construct 3 1 two_sets 3 = Some (σ', nx') ∧ σ' !! 3%positive = Some cp ∧
    inorder (tree_root_ cp) = [10%Z] ∧ size cp = 1%Z.
Proof.
  destruct (copy_constructor_makes_independent_copy Z.ltb 3%positive 1%positive
              two_sets _ 3%positive eq_refl eq_refl ten_set_valid
              ten_set_allocated)
    as (σ' & nx' & cp & H1 & H2 & _ & H4 & H5 & _).
  exists σ', nx', cp. split_and!; [exact H1|exact H2|exact H4|exact H5].
Defined.

Lemma copy_assignment_witness :
  copy_assign 1 1 two_sets 3 = Some (two_sets, 3%positive) ∧
  ∃ σ' nx' cp,
    copy_assign 2 1 two_sets 3 = Some (σ', nx') ∧ σ' !! 2%positive = Some cp ∧
    inorder (tree_root_ cp) = [10%Z] ∧ size cp = 1%Z.
Proof.
  split.
  - apply (proj1 (copy_assignment_copies_or_keeps Z.ltb 1%positive 1%positive
                    two_sets _ _ 3%positive eq_refl eq_refl ten_set_valid
                    ten_set_allocated) eq_refl).
  - assert (Hne : 1%positive ≠ 2%positive) by done.
    destruct (proj2 (copy_assignment_copies_or_keeps Z.ltb 2%positive
                 1%positive two_sets _ _ 3%positive eq_refl eq_refl
                 ten_set_valid ten_set_allocated) Hne)
      as (σ' & nx' & cp & H1 & H2 & _ & H4 & H5 & _).
    exists σ', nx', cp. split_and!; [exact H1|exact H2|exact H4|exact H5].
Defined.

Lemma move_keeps_source_count_witness :
  ∃ σ', move_construct 3 1 two_sets = Some σ' ∧
        σ' !! 1%positive = Some (MkSet nullptr 1).
Proof.
  destruct (proj2 (move_keeps_source_count 3%positive 1%positive two_sets _
                     eq_refl) eq_refl) as (σ' & H1 & H2 & _).
  exists σ'. split; [exact H1|exact H2].
Defined.

Lemma insert_keeps_level_invariant_witness :
  AA_levels (tree_root_ (insert Z.ltb 1 sample_set 6%Z sample_next).1.2) = true.
Proof.
  assert (H1 : AA_levels (tree_root_ sample_set) = true) by by vm_compute.
  assert (H2 : (level_of (tree_root_ sample_set) + 1 < 2 ^ 64)%Z)
    by by vm_compute.
  apply (insert_keeps_level_invariant Z.ltb 1%positive sample_set 6%Z
           sample_next H1 H2).
Defined.

Lemma constructed_tree_is_balanced_witness :
  AA_levels (tree_root_ (Set_range Z.ltb [5; 3; 8; 1; 4; 7; 9]%Z 1).1) = true.
Proof.
  assert (H : (Z.of_nat (length [5; 3; 8; 1; 4; 7; 9]%Z) + 1 < 2 ^ 64)%Z)
    by by vm_compute.
  apply (constructed_tree_is_balanced Z.ltb [5; 3; 8; 1; 4; 7; 9]%Z
           1%positive H).
Defined.

Lemma insert_present_changes_nothing_witness :
  insert Z.ltb 1 sample_set 5%Z sample_next
  = (find Z.ltb 1 sample_set 5%Z, true, sample_set, sample_next).
Proof.
  assert (H1 : AA_levels (tree_root_ sample_set) = true) by by vm_compute.
  assert (H2 : parents_ok None (tree_root_ sample_set)) by by vm_compute.
  assert (H3 : Find Z.ltb (tree_root_ sample_set) 5%Z = Some 1%positive)
    by by vm_compute.
  apply (insert_present_changes_nothing Z.ltb 1%positive sample_set 5%Z
           sample_next 1%positive H1 H2 H3).
Defined.

Lemma erase_absent_changes_nothing_witness :
  erase Z.ltb sample_set 6%Z = (0%Z, sample_set).
Proof.
  assert (H1 : AA_levels (tree_root_ sample_set) = true) by by vm_compute.
  assert (H2 : (level_of (tree_root_ sample_set) < 2 ^ 64)%Z) by by vm_compute.
  assert (H3 : Find Z.ltb (tree_root_ sample_set) 6%Z = None) by by vm_compute.
  apply (erase_absent_changes_nothing Z.ltb sample_set 6%Z H1 H2 H3).
Defined.

Lemma rotations_keep_sequence_and_links_witness :
  cells (Skew unskewed) = cells unskewed ∧
  parents_ok None (Skew unskewed) ∧
  Skew (tree_root_ sample_set) = tree_root_ sample_set.
Proof.
  assert (H1 : parents_ok None unskewed) by by vm_compute.
  assert (H2 : AA_levels (tree_root_ sample_set) = true) by by vm_compute.
  split_and!.
  - apply (rotations_keep_sequence_and_links unskewed None).
  - apply (rotations_keep_sequence_and_links unskewed None). exact H1.
  - apply (rotations_keep_sequence_and_links (tree_root_ sample_set) None).
    exact H2.
Defined.

Lemma Delete_frees_each_cell_once_witness :
  NoDup (Delete (tree_root_ sample_set)).
Proof.
  apply (Delete_frees_each_cell_once (tree_root_ sample_set)).
  apply sample_set_valid.
Defined.
